(** * pynanocoin frontier service: wire codec, in-memory store, blacklist, crawl pass

    A shallow embedding of [frontier_service.py].  Python values are modelled
    by the data they hold: [bytes] objects are lists of bytes, Python integers
    are [Z], a raised exception is the [Raise] branch of [result], and every
    Python class is a Rocq module holding its record and its methods. *)

From Stdlib Require Import ZArith Strings.Byte Lia.
From stdpp Require Import base option list.

Open Scope Z_scope.

(** ** Python runtime: exceptions, bytes, integers, lists *)

(** The exception classes that the modelled code raises or catches.
    [ConnectionResetError] is the built-in class that a socket call raises
    when the other side resets the connection; like
    [ConnectionRefusedError] it is a subclass of [ConnectionError], and
    neither is a subclass of the other.  [OtherException] stands for any
    class outside the ones named here (for instance a plain [OSError]
    with its errno). *)
Inductive exception : Type :=
  | AssertionError
  | AttributeError
  | IndexError
  | OverflowError
  | ValueError
  | NotImplementedError
  | BlacklistItemTypeError
  | ConnectionRefusedError
  | ConnectionResetError
  | socket_timeout
  | PyNanoCoinException
  | FrontierServiceSlowPeer
  | OtherException (code : nat).

Inductive result (A : Type) : Type :=
  | Ok (a : A)
  | Raise (e : exception).
Arguments Ok {A} a.
Arguments Raise {A} e.

#[global] Instance result_ret : MRet result := fun A a => Ok a.

#[global] Instance result_bind : MBind result := fun A B k m =>
  match m with
  | Ok a => k a
  | Raise e => Raise e
  end.

(** [assert cond] *)
Definition assert (cond : bool) : result unit :=
  if cond then Ok tt else Raise AssertionError.

(** Exposes the [match] behind a monadic bind and behind [assert]. *)
Ltac unfold_bind := unfold mbind, result_bind, assert in *.

Definition bytes : Type := list byte.

#[global] Instance byte_eq_decision : EqDecision byte := Byte.byte_eq_dec.

Definition byte_to_int (b : byte) : Z := Z.of_N (Byte.to_N b).

Definition byte_of_int (z : Z) : byte :=
  default x00 (Byte.of_N (Z.to_N z)).

(** [ord('K')] *)
Definition ord_K : Z := 75.

(** [b'\x00' * n] *)
Definition zero_bytes (n : nat) : bytes := replicate n x00.

(** [data[i]] for a non-negative index. *)
Definition getitem (data : bytes) (i : nat) : result Z :=
  match data !! i with
  | Some b => Ok (byte_to_int b)
  | None => Raise IndexError
  end.

(** [data[start:stop]] for non-negative bounds: a slice never raises, it is
    clipped to the data. *)
Definition slice (data : bytes) (start stop : nat) : bytes :=
  take (stop - start) (drop start data).

(** [data[start:]] *)
Definition slice_from (data : bytes) (start : nat) : bytes := drop start data.

Fixpoint to_bytes_little (length : nat) (n : Z) : bytes :=
  match length with
  | O => []
  | S k => byte_of_int (n mod 256) :: to_bytes_little k (n / 256)
  end.

(** [n.to_bytes(length, 'big')]: unsigned, [OverflowError] when [n] is
    negative or does not fit. *)
Definition int_to_bytes (n : Z) (length : nat) : result bytes :=
  if (0 <=? n) && (n <? 256 ^ Z.of_nat length)
  then Ok (rev (to_bytes_little length n))
  else Raise OverflowError.

(** [int.from_bytes(data, 'big')] *)
Definition int_from_bytes (data : bytes) : Z :=
  fold_left (fun acc b => acc * 256 + byte_to_int b) data 0.

(** [l.remove(x)]: drops the first element equal to [x], [ValueError] when
    there is none. *)
Fixpoint list_remove {A : Type} `{EqDecision A} (x : A) (l : list A)
    : result (list A) :=
  match l with
  | [] => Raise ValueError
  | y :: l' =>
      if decide (y = x) then Ok l'
      else (r ← list_remove x l'; Ok (y :: r))
  end.

(** ** [frontier_request.frontier_entry] *)

Module frontier_entry.

(** Modelled from the spec: the class [frontier_entry] lives in
    [frontier_request.py], which is not among the verified sources.
    The spec gives it as the pair (account, frontier_hash) of 32-byte
    identifiers, with a mutable hash, serialised as the 64-byte record
    account ‖ frontier_hash. *)
Record t : Type := new { account : bytes; frontier_hash : bytes }.

#[global] Instance eq_decision : EqDecision t.
Proof. solve_decision. Defined.

Definition set_frontier_hash (f : t) (h : bytes) : t :=
  {| account := account f; frontier_hash := h |}.

(** Modelled from the spec: [frontier_entry.serialise] is the 64-byte
    record, the account followed by the frontier hash. *)
Definition serialise (f : t) : bytes := account f ++ frontier_hash f.

(** A FrontierEntry of the spec: both identifiers are 32 bytes long. *)
Definition well_formed (f : t) : Prop :=
  length (account f) = 32%nat /\ length (frontier_hash f) = 32%nat.

End frontier_entry.

(** ** Wire codec *)

Module client_packet.

Record t : Type := mk { account : bytes; magic : Z }.

(** [client_packet(account)] *)
Definition new (account : bytes) : t :=
  {| account := account; magic := ord_K |}.

Definition parse (data : bytes) : result t :=
  assert (Z.of_nat (length data) =? 33);;
  b ← getitem data 0;
  assert (b =? ord_K);;
  let account := slice_from data 1 in
  Ok (new account).

Definition is_all_zero (self : t) : bool :=
  bool_decide (account self = zero_bytes 32).

Definition serialise (self : t) : result bytes :=
  let data := [] in
  k ← int_to_bytes ord_K 1;
  let data := data ++ k in
  let data := data ++ account self in
  Ok data.

End client_packet.

Module server_packet_header.

Record t : Type := new { no_of_frontiers : Z }.

Definition serialise (self : t) : result bytes :=
  let data := [] in
  k ← int_to_bytes ord_K 1;
  let data := data ++ k in
  n ← int_to_bytes (no_of_frontiers self) 8;
  let data := data ++ n in
  Ok data.

Definition parse (data : bytes) : result t :=
  b ← getitem data 0;
  assert (b =? ord_K);;
  let no_of_frontiers := int_from_bytes (slice data 1 9) in
  Ok (new no_of_frontiers).

End server_packet_header.

Module server_packet.

(** The list handed to [server_packet] holds whatever Python objects the
    caller put there: a [frontier_entry] is [Some f], the value [None] is
    [None]. *)
Record t : Type := mk {
  frontiers : list (option frontier_entry.t);
  header : server_packet_header.t
}.

(** [server_packet(frontiers)] *)
Definition new (frontiers : list (option frontier_entry.t)) : t :=
  {| frontiers := frontiers;
     header := server_packet_header.new (Z.of_nat (length frontiers)) |}.

(** [f.serialise()] on a list element: [None] has no such attribute. *)
Definition serialise_element (f : option frontier_entry.t) : result bytes :=
  match f with
  | Some f => Ok (frontier_entry.serialise f)
  | None => Raise AttributeError
  end.

(** The loop [for f in self.frontiers: data += f.serialise()]. *)
Fixpoint serialise_frontiers (fs : list (option frontier_entry.t))
    (data : bytes) : result bytes :=
  match fs with
  | [] => Ok data
  | f :: fs' =>
      d ← serialise_element f;
      serialise_frontiers fs' (data ++ d)
  end.

Definition serialise (self : t) : result bytes :=
  let data := [] in
  h ← server_packet_header.serialise (header self);
  let data := data ++ h in
  data ← serialise_frontiers (frontiers self) data;
  let data := data ++ zero_bytes 64 in
  Ok data.

(** The loop [for i in range(0, hdr.no_of_frontiers)], with its two
    running indices. *)
Fixpoint parse_loop (n : nat) (data : bytes) (start_index end_index : nat)
    (frontiers : list (option frontier_entry.t))
    : list (option frontier_entry.t) :=
  match n with
  | O => frontiers
  | S n' =>
      let front :=
        frontier_entry.new (slice data start_index (end_index - 32))
                           (slice data (end_index - 32) end_index) in
      parse_loop n' data (start_index + 64) (end_index + 64)
                 (frontiers ++ [Some front])
  end.

Definition parse (hdr : server_packet_header.t) (data : bytes) : result t :=
  assert (Z.of_nat (length data)
          =? 64 * server_packet_header.no_of_frontiers hdr + 64);;
  let frontiers :=
    parse_loop (Z.to_nat (server_packet_header.no_of_frontiers hdr))
               data 0 64 [] in
  Ok (new frontiers).

End server_packet.

(** ** [peer.Peer] *)

Module Peer.

(** Modelled from the spec: the class [Peer] lives in [peer.py], which is
    not among the verified sources.  The spec gives a peer as a network
    address (ip, port) with a mutable integer score. *)
Record t : Type := new { ip : bytes; port : Z; score : Z }.

(** Modelled from the spec: [Peer.deduct_score] is not among the verified
    sources; the spec says that a failing pull deducts 200 from the score
    and that two failures lower it by exactly 400, so the method subtracts
    its argument. *)
Definition deduct_score (self : t) (score : Z) : t :=
  {| ip := ip self; port := port self; score := Peer.score self - score |}.

#[global] Instance eq_decision : EqDecision t.
Proof. solve_decision. Defined.

End Peer.

(** Python's [==] on values of a class, as the class defines it. *)
Class PyEq (A : Type) : Type := py_eq : A -> A -> bool.

(** Modelled from the spec: [Peer.__eq__] is not among the verified
    sources; the spec says that the identity of a peer for equality and
    blacklisting is its address and port, the score taking no part. *)
#[global] Instance Peer_py_eq : PyEq Peer.t := fun p q =>
  bool_decide (Peer.ip p = Peer.ip q /\ Peer.port p = Peer.port q).

(** ** Storage backends *)

(** The abstract base class [frontier_database].  Every method may raise.
    Of its three subclasses the in-memory one is modelled below;
    [my_sql_db] and [store_in_lmdb] hand their work to an external
    database. *)
Class frontier_database (DB : Type) : Type := {
  add_frontier : DB -> frontier_entry.t -> Peer.t -> result DB;
  remove_frontier : DB -> frontier_entry.t -> Peer.t -> result DB;
  get_frontier : DB -> bytes -> result (option frontier_entry.t);
  get_all : DB -> result (list frontier_entry.t);
  count_frontiers : DB -> result Z
}.

Module store_in_ram_interface.

(** The private list [self.__frontiers].  An entry handed to
    [add_frontier] belongs to the store from then on, so an entry object is
    modelled by its two fields. *)
Definition t : Type := list frontier_entry.t.

(** [store_in_ram_interface()] *)
Definition new : t := [].

(** The search loop of [get_frontier].  Python hands back a reference to
    the entry stored in the list; the reference is the position of the
    entry together with its current value. *)
Definition find_frontier (self : t) (account : bytes)
    : option (nat * frontier_entry.t) :=
  list_find (fun f => frontier_entry.account f = account) self.

Definition get_frontier (self : t) (account : bytes)
    : option frontier_entry.t :=
  snd <$> find_frontier self account.

Definition add_frontier (self : t) (frontier : frontier_entry.t)
    (peer : Peer.t) : t :=
  match find_frontier self (frontier_entry.account frontier) with
  | Some (i, existing_front) =>
      <[i := frontier_entry.set_frontier_hash existing_front
               (frontier_entry.frontier_hash frontier)]> self
  | None => self ++ [frontier]
  end.

(** [list.remove] is given the entry that the search found; it looks for
    the first element equal to it, be that by identity or by fields. *)
Definition remove_frontier (self : t) (frontier : frontier_entry.t)
    (peer : Peer.t) : result t :=
  match get_frontier self (frontier_entry.account frontier) with
  | Some existing_front => list_remove existing_front self
  | None => Ok self
  end.

Definition count_frontiers (self : t) : Z := Z.of_nat (length self).

(** [copy.copy(self.__frontiers)] *)
Definition get_all (self : t) : list frontier_entry.t := self.

End store_in_ram_interface.

#[global] Instance store_in_ram_database
    : frontier_database store_in_ram_interface.t := {
  add_frontier self frontier peer :=
    Ok (store_in_ram_interface.add_frontier self frontier peer);
  remove_frontier := store_in_ram_interface.remove_frontier;
  get_frontier self account :=
    Ok (store_in_ram_interface.get_frontier self account);
  get_all self := Ok (store_in_ram_interface.get_all self);
  count_frontiers self := Ok (store_in_ram_interface.count_frontiers self)
}.

(** ** Blacklist *)

(** Clock values as [time.time()] returns them, with the subtraction and the
    comparison that [has_expired] applies to them.  Nothing is assumed about
    the two operations, so the model covers floating-point seconds as well
    as exact ones. *)
Class Timestamp (T : Type) : Type := {
  time_sub : T -> T -> T;
  time_gt : T -> T -> bool
}.

#[global] Instance Z_timestamp : Timestamp Z := {
  time_sub := Z.sub;
  time_gt := Z.gtb
}.

Module blacklist_entry.

Record t (A T : Type) : Type := new { item : A; time : T }.
Arguments new {A T} item time.
Arguments item {A T} self : rename.
Arguments time {A T} self : rename.

#[global] Instance eq_decision {A T} `{EqDecision A, EqDecision T}
  : EqDecision (t A T).
Proof. solve_decision. Defined.

(** [has_expired]; [now] is the value of [time.time()] at the call. *)
Definition has_expired {A T} `{Timestamp T} (now : T) (self : t A T)
    (expiry_time : T) : bool :=
  if time_gt (time_sub now (time self)) expiry_time then true else false.

End blacklist_entry.

Module blacklist_manager.

Section methods.
Context {A T : Type} `{PyEq A, Timestamp T, EqDecision A, EqDecision T}.

(** [object_type] is the class given to the constructor, modelled by
    the test [isinstance(item, object_type)] it induces on items. *)
Record t : Type := mk {
  blacklist : list (blacklist_entry.t A T);
  object_type : A -> bool;
  expiry_time : option T
}.

(** [blacklist_manager(object_type, expiry_time)] *)
Definition new (object_type : A -> bool) (expiry_time : option T) : t :=
  {| blacklist := []; object_type := object_type;
     expiry_time := expiry_time |}.

Definition set_blacklist (self : t) (l : list (blacklist_entry.t A T))
    : t :=
  {| blacklist := l; object_type := object_type self;
     expiry_time := expiry_time self |}.

Definition isinstance (item : A) (cls : A -> bool) : bool := cls item.

Definition get_entry (self : t) (item : A)
    : option (blacklist_entry.t A T) :=
  snd <$> list_find
            (fun b => py_eq item (blacklist_entry.item b) = true)
            (blacklist self).

(** [now] is the value of [time.time()] at the call. *)
Definition add_item (now : T) (self : t) (item : A) : result t :=
  if negb (isinstance item (object_type self))
  then Raise BlacklistItemTypeError
  else
    match get_entry self item with
    | None =>
        Ok (set_blacklist self
              (blacklist self ++ [blacklist_entry.new item now]))
    | Some _ => Ok self
    end.

(** [blacklist_entry] defines no [__eq__], so [list.remove] looks for
    the entry object itself. *)
Definition remove_entry (self : t) (entry : blacklist_entry.t A T)
    : result t :=
  l ← list_remove entry (blacklist self);
  Ok (set_blacklist self l).

(** Returns the manager after the call together with the answer. *)
Definition is_blacklisted (now : T) (self : t) (item : A)
    : result (t * bool) :=
  match get_entry self item with
  | None => Ok (self, false)
  | Some entry =>
      match expiry_time self with
      | Some ttl =>
          if blacklist_entry.has_expired now entry ttl
          then (self' ← remove_entry self entry; Ok (self', false))
          else Ok (self, true)
      | None => Ok (self, true)
      end
  end.

Definition remove_item (self : t) (item : A) : result t :=
  match get_entry self item with
  | Some entry => remove_entry self entry
  | None => Ok self
  end.

Definition set_expiry_time (self : t) (expiry_time : T) : t :=
  {| blacklist := blacklist self; object_type := object_type self;
     expiry_time := Some expiry_time |}.

End methods.
Arguments t A T : clear implicits.

End blacklist_manager.

(** ** Sockets *)

Module socket.

(** A connected stream socket as the service sees it: the bytes still to
    be read, the bytes written so far, and whether it has been closed. *)
Record t : Type := mk { incoming : bytes; outgoing : bytes; closed : bool }.

(** [s.recv(n)] when the peer's bytes have arrived: at most [n] of
    them. *)
Definition recv (s : t) (n : nat) : t * bytes :=
  ({| incoming := drop n (incoming s); outgoing := outgoing s;
      closed := closed s |},
   take n (incoming s)).

(** [s.sendall(data)] when the other side takes the data within the
    timeout: every byte is written.  A send that times out or finds the
    connection broken after part of the data went out raises in Python;
    that case is outside this model, and nothing below is stated about
    it. *)
Definition sendall (s : t) (data : bytes) : t :=
  {| incoming := incoming s; outgoing := outgoing s ++ data;
     closed := closed s |}.

Definition close (s : t) : t :=
  {| incoming := incoming s; outgoing := outgoing s; closed := true |}.

(** [with s: body]: the socket is closed when the block is left, by a
    return or by an exception alike. *)
Definition with_ {A : Type} (s : t) (body : t -> t * result A)
    : t * result A :=
  let '(s', r) := body s in (close s', r).

End socket.

(** ** The service *)

(** What a frontier pull from one peer delivers: the entries streamed
    before the end marker, and the exception that cut the pull short, if
    any (a failed [connect] is an empty stream cut short at once). *)
Definition pull_outcome : Type := list frontier_entry.t * option exception.

Module frontier_service.

Section methods.
Context {DB : Type} `{frontier_database DB}.

(** The fields of the service that the modelled methods use. *)
Record t : Type := mk {
  database_interface : DB;
  peers : list Peer.t;
  ready : bool
}.

Definition comm_thread (self : t) (s : socket.t) : socket.t * result unit :=
  socket.with_ s (fun s =>
    let '(s, data) := socket.recv s 33 in
    let reply :=
      c_packet ← client_packet.parse data;
      if client_packet.is_all_zero c_packet then
        frontiers ← get_all (database_interface self);
        let s_packet := server_packet.new (Some <$> frontiers) in
        server_packet.serialise s_packet
      else
        frontier ← get_frontier (database_interface self)
                                (client_packet.account c_packet);
        let s_packet := server_packet.new [frontier] in
        server_packet.serialise s_packet in
    match reply with
    | Ok out => (socket.sendall s out, Ok tt)
    | Raise e => (s, Raise e)
    end).

(** [add_fronts_from_iter]: [fronts] are the entries the iterator
    yields, [stop] is how it ends ([None] for [StopIteration]). *)
Fixpoint add_fronts_from_iter (db : DB) (fronts : list frontier_entry.t)
    (stop : option exception) (peer : Peer.t) : DB * result unit :=
  match fronts with
  | [] =>
      match stop with
      | None => (db, Ok tt)
      | Some e => (db, Raise e)
      end
  | front :: fronts' =>
      match add_frontier db front peer with
      | Ok db' => add_fronts_from_iter db' fronts' stop peer
      | Raise e => (db, Raise e)
      end
  end.

(** [manage_peer_frontiers]: connecting, sending the request and reading
    the stream are the peer's side, given by [network]; the entries read
    are handed to the store one by one. *)
Definition manage_peer_frontiers (network : Peer.t -> pull_outcome)
    (db : DB) (p : Peer.t) : DB * result unit :=
  let '(fronts, stop) := network p in
  add_fronts_from_iter db fronts stop p.

(** The exception classes named by the [except] clause of
    [single_pass]. *)
Definition caught (e : exception) : bool :=
  match e with
  | ConnectionRefusedError | socket_timeout
  | PyNanoCoinException | FrontierServiceSlowPeer => true
  | _ => false
  end.

(** The loop [for p in self.peers] of [single_pass]; the peers are
    listed in iteration order and come back with their new scores. *)
Fixpoint single_pass_loop (network : Peer.t -> pull_outcome) (db : DB)
    (peers : list Peer.t) : DB * list Peer.t * result unit :=
  match peers with
  | [] => (db, [], Ok tt)
  | p :: rest =>
      match manage_peer_frontiers network db p with
      | (db', Ok _) =>
          let '(db'', rest', r) := single_pass_loop network db' rest in
          (db'', p :: rest', r)
      | (db', Raise exception) =>
          if caught exception then
            let p' := Peer.deduct_score p 200 in
            let '(db'', rest', r) := single_pass_loop network db' rest in
            (db'', p' :: rest', r)
          else (db', p :: rest, Raise exception)
      end
  end.

Definition single_pass (network : Peer.t -> pull_outcome) (self : t)
    : t * result unit :=
  let '(db, peers, r) :=
    single_pass_loop network (database_interface self) (peers self) in
  ({| database_interface := db; peers := peers; ready := ready self |}, r).

End methods.
Arguments t DB : clear implicits.

End frontier_service.

(** ** Outcome of a crawl pass *)

(** The pull from [p] ends in an exception. *)
Definition pull_fails (network : Peer.t -> pull_outcome) (p : Peer.t)
    : bool :=
  match snd (network p) with
  | Some _ => true
  | None => false
  end.

(** The peer as a pass with only caught failures leaves it. *)
Definition after_pass (network : Peer.t -> pull_outcome) (p : Peer.t)
    : Peer.t :=
  if pull_fails network p then Peer.deduct_score p 200 else p.


(** ** Reference decoding *)

(** The records of a response body read off independently of the parser:
    [n] consecutive 64-byte chunks, each an account followed by a hash. *)
Fixpoint body_records (n : nat) (body : bytes) : list frontier_entry.t :=
  match n with
  | O => []
  | S k =>
      frontier_entry.new (take 32 body) (take 32 (drop 32 body))
      :: body_records k (drop 64 body)
  end.

(** ** Histories of the in-memory store *)

Module history.

(** One call on the store; the peer argument is kept as the code passes
    it. *)
Inductive operation : Type :=
  | add (frontier : frontier_entry.t) (peer : Peer.t)
  | remove (frontier : frontier_entry.t) (peer : Peer.t).

Definition account_of (op : operation) : bytes :=
  match op with
  | add frontier _ | remove frontier _ => frontier_entry.account frontier
  end.

Definition is_add (op : operation) : bool :=
  match op with add _ _ => true | remove _ _ => false end.

Definition is_remove (op : operation) : bool := negb (is_add op).

Definition apply (self : store_in_ram_interface.t) (op : operation)
    : result store_in_ram_interface.t :=
  match op with
  | add frontier peer =>
      Ok (store_in_ram_interface.add_frontier self frontier peer)
  | remove frontier peer =>
      store_in_ram_interface.remove_frontier self frontier peer
  end.

(** The calls of [ops], in order, on the store [self]. *)
Fixpoint run (self : store_in_ram_interface.t) (ops : list operation)
    : result store_in_ram_interface.t :=
  match ops with
  | [] => Ok self
  | op :: ops' => self' ← apply self op; run self' ops'
  end.

(** The accounts the store holds, in storage order. *)
Definition accounts (self : store_in_ram_interface.t) : list bytes :=
  frontier_entry.account <$> self.

(** The distinct accounts ever added. *)
Definition added_accounts (ops : list operation) : list bytes :=
  remove_dups (account_of <$> filter (fun op => is_add op = true) ops).

(** [account] was added at some point and a removal of it came later. *)
Fixpoint removed_after_add (account : bytes) (ops : list operation) : bool :=
  match ops with
  | [] => false
  | op :: ops' =>
      if is_add op && bool_decide (account_of op = account)
      then existsb (fun op' => is_remove op'
                               && bool_decide (account_of op' = account)) ops'
      else removed_after_add account ops'
  end.

(** The count as the sentence "distinct accounts ever added minus those
    removed" reads: every added account that was removed at some later
    point is subtracted. *)
Definition added_minus_removed (ops : list operation) : Z :=
  Z.of_nat (length (added_accounts ops))
  - Z.of_nat (length (filter (fun a => removed_after_add a ops = true)
                             (added_accounts ops))).

(** The last call of [ops] that names [account]. *)
Definition last_call (account : bytes) (ops : list operation)
    : option operation :=
  last (filter (fun op => account_of op = account) ops).

(** The most recent call on [account] is a removal. *)
Definition removed_last (account : bytes) (ops : list operation) : bool :=
  match last_call account ops with
  | Some op => is_remove op
  | None => false
  end.

(** The most recent call on [account] is an addition. *)
Definition added_last (account : bytes) (ops : list operation) : bool :=
  match last_call account ops with
  | Some op => is_add op
  | None => false
  end.

(** Distinct accounts ever added, minus those whose most recent call is a
    removal. *)
Definition added_minus_removed_last (ops : list operation) : Z :=
  Z.of_nat (length (added_accounts ops))
  - Z.of_nat (length (filter (fun a => removed_last a ops = true)
                             (added_accounts ops))).

End history.

(** ** The relational backend *)

Module my_sql_db.

Definition BATCH_SIZE : nat := 1024.

(** One parenthesised triple of the VALUES list that [add_frontier] builds:
    the hex text of the serialised peer, of the account and of the
    frontier hash, kept here as the three values the text is made from. *)
Record row : Type := mk_row {
  row_peer : Peer.t;
  row_account : bytes;
  row_frontier_hash : bytes
}.

(** The SQL statements that the class sends, by what they are built from. *)
Inductive statement : Type :=
  (** INSERT INTO Frontiers(peer_id, account_hash, frontier_hash) VALUES
      ... ON DUPLICATE KEY UPDATE frontier_hash = VALUES(frontier_hash) *)
  | insert_frontiers (values : list row)
  (** INSERT INTO Peers(peer_id, ip_address, port, score) VALUES(...)
      ON DUPLICATE KEY UPDATE port = port *)
  | insert_peer (peer : Peer.t)
  (** DELETE FROM Frontiers WHERE peer_id = '...' *)
  | delete_frontiers_of_peer (peer : Peer.t)
  (** DELETE FROM Peers WHERE peer_id = '...' *)
  | delete_peer (peer : Peer.t)
  (** DELETE FROM Frontiers WHERE account  = '%s', sent with the
      placeholder as it stands *)
  | delete_frontiers_where_account_placeholder.

(** A call on the database connection. *)
Inductive db_call : Type :=
  | execute (query : statement)
  | commit.

(** The object: the calls made so far on [self.cursor] and [self.db], in
    order, and the two lists [self.peers_stored] and [self.__cache].  The
    database calls themselves are taken to return normally. *)
Record t : Type := mk {
  calls : list db_call;
  peers_stored : list Peer.t;
  cache : list row
}.

(** [my_sql_db(cursor, db)] *)
Definition new : t := {| calls := []; peers_stored := []; cache := [] |}.

Definition add_peer_to_db (self : t) (peer : Peer.t) : t :=
  {| calls := calls self ++ [execute (insert_peer peer); commit];
     peers_stored := peers_stored self;
     cache := cache self |}.

(** [__add_batch] *)
Definition add_batch (self : t) : t :=
  let query := insert_frontiers (cache self) in
  {| calls := calls self ++ [execute query; commit];
     peers_stored := peers_stored self;
     cache := [] |}.

Definition add_frontier (self : t) (frontier : frontier_entry.t)
    (peer : Peer.t) : t :=
  let self :=
    if negb (existsb (fun q => py_eq q peer) (peers_stored self))
    then
      let self := add_peer_to_db self peer in
      {| calls := calls self;
         peers_stored := peers_stored self ++ [peer];
         cache := cache self |}
    else self in
  let query := mk_row peer (frontier_entry.account frontier)
                      (frontier_entry.frontier_hash frontier) in
  let self := {| calls := calls self;
                 peers_stored := peers_stored self;
                 cache := cache self ++ [query] |} in
  if (BATCH_SIZE <? length (cache self))%nat then add_batch self else self.

Definition remove_peer_data (self : t) (p : Peer.t) : t :=
  {| calls := calls self ++ [execute (delete_frontiers_of_peer p);
                             execute (delete_peer p); commit];
     peers_stored := peers_stored self;
     cache := cache self |}.

Definition remove_frontier (self : t) (frontier : frontier_entry.t)
    (peer : Peer.t) : t :=
  let self := remove_peer_data self peer in
  {| calls := calls self
              ++ [execute delete_frontiers_where_account_placeholder];
     peers_stored := peers_stored self;
     cache := cache self |}.

Definition get_all (self : t) : result (list frontier_entry.t) :=
  Raise NotImplementedError.

(** The calls [add_frontier] of [adds], in order. *)
Definition add_frontiers (self : t)
    (adds : list (frontier_entry.t * Peer.t)) : t :=
  fold_left (fun self a => add_frontier self (fst a) (snd a)) adds self.

(** The row that [add_frontier] queues for a call. *)
Definition row_of (a : frontier_entry.t * Peer.t) : row :=
  mk_row (snd a) (frontier_entry.account (fst a))
         (frontier_entry.frontier_hash (fst a)).

(** The VALUES lists of the bulk inserts among the calls, in order. *)
Definition flushed (calls : list db_call) : list (list row) :=
  omap (fun c => match c with
                 | execute (insert_frontiers values) => Some values
                 | _ => None
                 end) calls.

(** The peers of the inserts into Peers among the calls, in order. *)
Definition registered (calls : list db_call) : list Peer.t :=
  omap (fun c => match c with
                 | execute (insert_peer peer) => Some peer
                 | _ => None
                 end) calls.

(** Every bulk insert among the calls carries only rows whose peer was
    inserted into Peers by an earlier call, or is among [seen]. *)
Fixpoint rows_follow_peers (seen : list (bytes * Z)) (calls : list db_call)
    : Prop :=
  match calls with
  | [] => True
  | execute (insert_frontiers values) :: rest =>
      Forall (fun r => (Peer.ip (row_peer r), Peer.port (row_peer r)) ∈ seen)
             values
      /\ rows_follow_peers seen rest
  | execute (insert_peer peer) :: rest =>
      rows_follow_peers (seen ++ [(Peer.ip peer, Peer.port peer)]) rest
  | _ :: rest => rows_follow_peers seen rest
  end.

End my_sql_db.

(** ** Client side of the protocol *)

(** What the service end of a connection writes back for the bytes the
    client sent, when the service runs [comm_thread] on that connection. *)
Definition serve {DB : Type} `{frontier_database DB}
    (self : frontier_service.t DB) (request : bytes) : bytes :=
  socket.outgoing
    (fst (frontier_service.comm_thread self (socket.mk request [] false))).

Module client.

Section helpers.

(** The exception class of a read that the stream cannot satisfy. *)
Variable short_read : exception.

(** The far end of the connection: its answer to the bytes sent. *)
Variable connect : bytes -> bytes.

(** Modelled from the spec: [read_socket] is a helper of [pynanocoin.py],
    which is not among the verified sources.  It hands back exactly
    [numbytes] bytes of the stream; a stream that ends before that is the
    short read that the spec lists as a decoding failure. *)
Definition read_socket (s : socket.t) (numbytes : Z) : socket.t * result bytes :=
  if Z.of_nat (length (socket.incoming s)) <? numbytes
  then (s, Raise short_read)
  else
    let n := Z.to_nat numbytes in
    ({| socket.incoming := drop n (socket.incoming s);
        socket.outgoing := socket.outgoing s;
        socket.closed := socket.closed s |},
     Ok (take n (socket.incoming s))).

(** The socket of a client once it has connected and sent [request]. *)
Definition connected (request : bytes) : socket.t :=
  socket.mk (connect request) request false.


Definition get_accounts_frontier_packet_from_service (account : bytes)
    : result server_packet.t :=
  assert (Z.of_nat (length account) =? 32);;
  let c_packet := client_packet.new account in
  request ← client_packet.serialise c_packet;
  let s := connected request in
  let '(s, hdr_data) := read_socket s 9 in
  hdr_data ← hdr_data;
  s_hdr ← server_packet_header.parse hdr_data;
  let '(s, front_data) := read_socket s 128 in
  front_data ← front_data;
  server_packet.parse s_hdr front_data.

End helpers.

End client.

(** ** The peer registry of the service *)

Module peer_registry.

Section methods.
Context {T : Type} `{Timestamp T, EqDecision T}.

(** The fields [self.peers] and [self.blacklist] of [frontier_service];
    the set of peers is listed in the order the peers were added. *)
Record t : Type := mk {
  peers : list Peer.t;
  blacklist : blacklist_manager.t Peer.t T
}.

(** [p in peers] on the set: some member equals [p]. *)
Definition contains (peers : list Peer.t) (p : Peer.t) : bool :=
  existsb (fun q => py_eq q p) peers.

(** The loop of [merge_peers].  Every [is_blacklisted] reads the clock
    once; [clock k] is the reading of the call for the candidate at
    position [k]. *)
Fixpoint merge_peers_loop (clock : nat -> T) (k : nat) (self : t)
    (candidates : list Peer.t) : result t :=
  match candidates with
  | [] => Ok self
  | p :: rest =>
      '(blacklist, listed) ←
        blacklist_manager.is_blacklisted (clock k) (blacklist self) p;
      let self :=
        if negb listed && negb (contains (peers self) p)
        then {| peers := peers self ++ [p]; blacklist := blacklist |}
        else {| peers := peers self; blacklist := blacklist |} in
      merge_peers_loop clock (S k) self rest
  end.

Definition merge_peers (clock : nat -> T) (self : t) (peers : list Peer.t)
    : result t :=
  merge_peers_loop clock 0 self peers.

(** One turn of the loop of [merge_peers], on its own. *)
Definition merge_step (now : T) (self : t) (p : Peer.t) : result t :=
  '(blacklist, listed) ←
    blacklist_manager.is_blacklisted now (blacklist self) p;
  Ok (if negb listed && negb (contains (peers self) p)
      then {| peers := peers self ++ [p]; blacklist := blacklist |}
      else {| peers := peers self; blacklist := blacklist |}).

(** [fetch_peers]: [crawled] is what the peer crawler service returns and
    [is_ipv4] the test of [ip_addr.is_ipv4], both outside the verified
    sources. *)
Definition fetch_peers (crawled : list Peer.t) (is_ipv4 : bytes -> bool)
    (clock : nat -> T) (self : t) : result t :=
  let peers := crawled in
  let peers :=
    filter (fun p => 1000 <= Peer.score p /\ is_ipv4 (Peer.ip p) = true)
           peers in
  assert (negb (bool_decide (peers = [])));;
  merge_peers clock self peers.

End methods.
Arguments t T : clear implicits.

End peer_registry.

(** The identity of a peer: what [Peer_py_eq] compares. *)
Definition peer_identity (p : Peer.t) : bytes * Z := (Peer.ip p, Peer.port p).

(** The identities that a list of blacklist entries names, in order. *)
Definition listed_identities {T : Type}
    (l : list (blacklist_entry.t Peer.t T)) : list (bytes * Z) :=
  (fun b => peer_identity (blacklist_entry.item b)) <$> l.

Example client_parse_ok :
  client_packet.parse ("K"%byte :: zero_bytes 32)
  = Ok (client_packet.new (zero_bytes 32)).
Proof. reflexivity. Qed.

(** * Properties *)

(** ** Bytes and integers *)

Lemma byte_to_of_int (z : Z) :
  0 <= z < 256 -> byte_to_int (byte_of_int z) = z.
Proof.
  intros Hz. unfold byte_to_int, byte_of_int.
  destruct (Byte.of_N (Z.to_N z)) as [b|] eqn:E; simpl.
  - apply Byte.to_of_N in E. rewrite E. lia.
  - apply Byte.of_N_None_iff in E. lia.
Qed.

Lemma byte_to_int_K (b : byte) : byte_to_int b = ord_K <-> b = "K"%byte.
Proof.
  split; [|intros ->; reflexivity].
  intros Hb. unfold byte_to_int, ord_K in Hb.
  assert (E : Byte.to_N b = 75%N) by lia.
  assert (Hof : Byte.of_N (Byte.to_N b) = Some b) by apply Byte.of_to_N.
  rewrite E in Hof. vm_compute in Hof. congruence.
Qed.

Lemma length_to_bytes_little (len : nat) (n : Z) :
  length (to_bytes_little len n) = len.
Proof.
  revert n. induction len as [|len IH]; intros n; simpl; [reflexivity|].
  now rewrite IH.
Qed.

Lemma int_from_bytes_snoc (data : bytes) (b : byte) :
  int_from_bytes (data ++ [b]) = int_from_bytes data * 256 + byte_to_int b.
Proof. unfold int_from_bytes. now rewrite fold_left_app. Qed.

Lemma int_from_to_bytes_little (len : nat) (n : Z) :
  0 <= n < 256 ^ Z.of_nat len ->
  int_from_bytes (rev (to_bytes_little len n)) = n.
Proof.
  revert n. induction len as [|len IH]; intros n Hn.
  - simpl in *. unfold int_from_bytes. simpl. lia.
  - rewrite Nat2Z.inj_succ, Z.pow_succ_r in Hn by lia.
    cbn [to_bytes_little rev]. rewrite int_from_bytes_snoc.
    rewrite IH.
    + rewrite byte_to_of_int by (apply Z.mod_pos_bound; lia).
      pose proof (Z.div_mod n 256). lia.
    + split; [apply Z.div_pos; lia|].
      apply Z.div_lt_upper_bound; lia.
Qed.

Lemma int_to_bytes_ok (n : Z) (len : nat) :
  0 <= n < 256 ^ Z.of_nat len ->
  exists data, int_to_bytes n len = Ok data
               /\ length data = len /\ int_from_bytes data = n.
Proof.
  intros Hn. exists (rev (to_bytes_little len n)). unfold int_to_bytes.
  replace ((0 <=? n) && (n <? 256 ^ Z.of_nat len)) with true
    by (symmetry; apply andb_true_iff; split; [apply Z.leb_le|apply Z.ltb_lt]; lia).
  split; [reflexivity|]. split.
  - now rewrite length_rev, length_to_bytes_little.
  - now apply int_from_to_bytes_little.
Qed.

Lemma slice_app_middle (pre mid post : bytes) :
  slice (pre ++ mid ++ post) (length pre) (length pre + length mid) = mid.
Proof.
  unfold slice. rewrite drop_app_length.
  replace (length pre + length mid - length pre)%nat with (length mid) by lia.
  apply take_app_length.
Qed.

(** ** Client requests *)

Lemma client_packet_serialise_eq (self : client_packet.t) :
  client_packet.serialise self
  = Ok ("K"%byte :: client_packet.account self).
Proof. reflexivity. Qed.

Lemma client_packet_parse_ok (account : bytes) :
  length account = 32%nat ->
  client_packet.parse ("K"%byte :: account) = Ok (client_packet.new account).
Proof.
  intros Hlen. unfold client_packet.parse. cbn [length]. rewrite Hlen.
  reflexivity.
Qed.

(** C8.  A client request built from any 32-byte account, the all-zero one
    included, serialises to bytes that parse back to a request holding
    exactly that account; and [is_all_zero] on the parsed request answers
    true exactly when the account is 32 zero bytes. *)
Theorem client_packet_roundtrip (account : bytes) :
  length account = 32%nat ->
  exists data c_packet,
    client_packet.serialise (client_packet.new account) = Ok data
    /\ client_packet.parse data = Ok c_packet
    /\ client_packet.account c_packet = account
    /\ (client_packet.is_all_zero c_packet = true
        <-> account = zero_bytes 32).
Proof.
  intros Hlen.
  exists ("K"%byte :: account), (client_packet.new account).
  split; [apply client_packet_serialise_eq|].
  split; [now apply client_packet_parse_ok|].
  split; [reflexivity|].
  unfold client_packet.is_all_zero. cbn [client_packet.account client_packet.new].
  apply bool_decide_eq_true.
Qed.

Lemma client_packet_roundtrip_witness :
  exists data c_packet,
    client_packet.serialise (client_packet.new (zero_bytes 32)) = Ok data
    /\ client_packet.parse data = Ok c_packet
    /\ client_packet.account c_packet = zero_bytes 32
    /\ (client_packet.is_all_zero c_packet = true
        <-> zero_bytes 32 = zero_bytes 32).
Proof. apply (client_packet_roundtrip (zero_bytes 32)). reflexivity. Defined.

Lemma client_packet_parse_cases (data : bytes) :
  (length data = 33%nat /\ data !! 0%nat = Some "K"%byte
   /\ client_packet.parse data = Ok (client_packet.new (drop 1 data)))
  \/ ((length data <> 33%nat \/ data !! 0%nat <> Some "K"%byte)
      /\ client_packet.parse data = Raise AssertionError).
Proof.
  unfold client_packet.parse, getitem, slice_from. unfold_bind.
  destruct (Z.of_nat (length data) =? 33) eqn:Hlen.
  - apply Z.eqb_eq in Hlen.
    destruct data as [|b data]; [simpl in Hlen; lia|]. cbn [lookup list_lookup].
    destruct (byte_to_int b =? ord_K) eqn:Hb.
    + apply Z.eqb_eq, byte_to_int_K in Hb. subst b. left.
      split; [lia|]. split; reflexivity.
    + right. split; [|reflexivity]. right. intros [= ->]. discriminate Hb.
  - apply Z.eqb_neq in Hlen. right. split; [|reflexivity]. left. lia.
Qed.

Lemma server_packet_parse_cases (hdr : server_packet_header.t) (data : bytes) :
  let n := server_packet_header.no_of_frontiers hdr in
  (Z.of_nat (length data) = 64 * n + 64
   /\ server_packet.parse hdr data
      = Ok (server_packet.new
              (server_packet.parse_loop (Z.to_nat n) data 0 64 [])))
  \/ (Z.of_nat (length data) <> 64 * n + 64
      /\ server_packet.parse hdr data = Raise AssertionError).
Proof.
  intros n. unfold server_packet.parse. unfold_bind. fold n.
  destruct (Z.of_nat (length data) =? 64 * n + 64) eqn:Hlen.
  - apply Z.eqb_eq in Hlen. left. split; [assumption|reflexivity].
  - apply Z.eqb_neq in Hlen. right. split; [assumption|reflexivity].
Qed.

(** C4.  [client_packet.parse] raises [AssertionError] exactly on the inputs
    whose length is not 33 or whose first byte is not the magic 'K', and
    returns a packet exactly on the others; [server_packet.parse] raises
    [AssertionError] exactly on the bodies whose length is not
    64 * count + 64 for the count of the header, and returns a packet
    exactly on the others. *)
Theorem parse_rejects_malformed_input
    (data : bytes) (hdr : server_packet_header.t) (body : bytes) :
  (client_packet.parse data = Raise AssertionError
   <-> (length data <> 33%nat \/ data !! 0%nat <> Some "K"%byte))
  /\ ((exists c_packet, client_packet.parse data = Ok c_packet)
      <-> (length data = 33%nat /\ data !! 0%nat = Some "K"%byte))
  /\ (server_packet.parse hdr body = Raise AssertionError
      <-> Z.of_nat (length body)
          <> 64 * server_packet_header.no_of_frontiers hdr + 64)
  /\ ((exists s_packet, server_packet.parse hdr body = Ok s_packet)
      <-> Z.of_nat (length body)
          = 64 * server_packet_header.no_of_frontiers hdr + 64).
Proof.
  assert (Hclient :
    (client_packet.parse data = Raise AssertionError
     <-> (length data <> 33%nat \/ data !! 0%nat <> Some "K"%byte))
    /\ ((exists c_packet, client_packet.parse data = Ok c_packet)
        <-> (length data = 33%nat /\ data !! 0%nat = Some "K"%byte))).
  { destruct (client_packet_parse_cases data) as [(Hl & Hb & Hp)|[Hbad Hp]];
      rewrite Hp; split; split.
    - discriminate.
    - intros [Hne|Hne]; contradiction.
    - intros _. now split.
    - intros _. eauto.
    - intros _. exact Hbad.
    - reflexivity.
    - intros [c_packet Hc]. discriminate.
    - intros [Hl Hb]. destruct Hbad; contradiction. }
  assert (Hserver :
    (server_packet.parse hdr body = Raise AssertionError
     <-> Z.of_nat (length body)
         <> 64 * server_packet_header.no_of_frontiers hdr + 64)
    /\ ((exists s_packet, server_packet.parse hdr body = Ok s_packet)
        <-> Z.of_nat (length body)
            = 64 * server_packet_header.no_of_frontiers hdr + 64)).
  { destruct (server_packet_parse_cases hdr body) as [[Hs Hq]|[Hs Hq]];
      rewrite Hq; split; split.
    - discriminate.
    - intros Hne. contradiction.
    - intros _. exact Hs.
    - intros _. eauto.
    - intros _. exact Hs.
    - reflexivity.
    - intros [s_packet Hc]. discriminate.
    - intros Heq. contradiction. }
  tauto.
Qed.

(** ** Server responses *)

Lemma serialise_frontiers_entries (entries : list frontier_entry.t)
    (data : bytes) :
  server_packet.serialise_frontiers (Some <$> entries) data
  = Ok (data ++ concat (frontier_entry.serialise <$> entries)).
Proof.
  revert data. induction entries as [|f entries IH]; intros data.
  - simpl. now rewrite app_nil_r.
  - rewrite !fmap_cons.
    cbn [server_packet.serialise_frontiers server_packet.serialise_element
         concat].
    unfold_bind. rewrite IH. now rewrite <- app_assoc.
Qed.

Lemma length_concat_serialise (entries : list frontier_entry.t) :
  Forall frontier_entry.well_formed entries ->
  length (concat (frontier_entry.serialise <$> entries))
  = (64 * length entries)%nat.
Proof.
  induction 1 as [|f entries [Ha Hh] _ IH]; [reflexivity|].
  rewrite fmap_cons. cbn [concat length].
  unfold frontier_entry.serialise at 1. rewrite !length_app, IH, Ha, Hh. lia.
Qed.

(** The parse loop, started at the end of any prefix, reads back the
    entries whose records follow that prefix, whatever comes after them. *)
Lemma parse_loop_entries (entries : list frontier_entry.t) :
  Forall frontier_entry.well_formed entries ->
  forall (pre tail : bytes) (acc : list (option frontier_entry.t)),
    server_packet.parse_loop (length entries)
      (pre ++ concat (frontier_entry.serialise <$> entries) ++ tail)
      (length pre) (length pre + 64) acc
    = acc ++ (Some <$> entries).
Proof.
  induction 1 as [|f entries [Ha Hh] _ IH]; intros pre tail acc.
  - simpl. now rewrite app_nil_r.
  - rewrite !fmap_cons. cbn [length concat].
    destruct f as [a h]; cbn in Ha, Hh.
    change (frontier_entry.serialise (frontier_entry.new a h)) with (a ++ h).
    remember (pre ++ ((a ++ h) ++ concat (frontier_entry.serialise <$> entries))
                  ++ tail) as data eqn:Hdata.
    cbn [server_packet.parse_loop].
    assert (H1 : slice data (length pre) (length pre + 64 - 32) = a).
    { subst data.
      replace (length pre + 64 - 32)%nat with (length pre + length a)%nat
        by lia.
      rewrite <- !app_assoc. apply slice_app_middle. }
    assert (H2 : slice data (length pre + 64 - 32) (length pre + 64) = h).
    { subst data.
      replace (length pre + 64 - 32)%nat with (length (pre ++ a))
        by (rewrite length_app; lia).
      replace (length pre + 64)%nat with (length (pre ++ a) + length h)%nat
        by (rewrite length_app; lia).
      rewrite <- !app_assoc. rewrite (app_assoc pre a).
      apply slice_app_middle. }
    rewrite H1, H2.
    specialize (IH (pre ++ a ++ h) tail
                   (acc ++ [Some (frontier_entry.new a h)])).
    replace (length (pre ++ a ++ h)) with (length pre + 64)%nat in IH
      by (rewrite !length_app; lia).
    replace ((pre ++ a ++ h)
             ++ concat (frontier_entry.serialise <$> entries) ++ tail)
      with data in IH by (subst data; now rewrite <- !app_assoc).
    rewrite IH. now rewrite <- app_assoc.
Qed.

Lemma body_records_spec (n : nat) (body : bytes) :
  length body = (64 * n)%nat ->
  Forall frontier_entry.well_formed (body_records n body)
  /\ length (body_records n body) = n
  /\ concat (frontier_entry.serialise <$> body_records n body) = body.
Proof.
  revert body. induction n as [|n IH]; intros body Hlen.
  - destruct body; [|simpl in Hlen; lia]. repeat split. constructor.
  - destruct (IH (drop 64 body)) as (Hwf & Hn & Hcat).
    { rewrite length_drop. lia. }
    cbn [body_records]. repeat split.
    + constructor; [|assumption]. split; cbn.
      * rewrite length_take. lia.
      * rewrite length_take, length_drop. lia.
    + cbn [length]. now rewrite Hn.
    + rewrite fmap_cons. cbn [concat].
      rewrite Hcat. unfold frontier_entry.serialise; cbn.
      rewrite <- app_assoc.
      transitivity (take 32 body ++ drop 32 body); [|apply take_drop].
      f_equal. change 64%nat with (32 + 32)%nat.
      rewrite <- drop_drop. apply take_drop.
Qed.

Lemma header_serialise_ok (n : Z) :
  0 <= n < 2 ^ 64 ->
  exists count,
    server_packet_header.serialise (server_packet_header.new n)
    = Ok ("K"%byte :: count)
    /\ length count = 8%nat /\ int_from_bytes count = n.
Proof.
  intros Hn.
  destruct (int_to_bytes_ok n 8) as (count & Hc & Hlen & Hval).
  { change (256 ^ Z.of_nat 8) with (2 ^ 64). exact Hn. }
  exists count. unfold server_packet_header.serialise. unfold_bind.
  cbn [server_packet_header.no_of_frontiers]. rewrite Hc.
  change (int_to_bytes ord_K 1) with (Ok ["K"%byte] : result bytes).
  now repeat split.
Qed.

Lemma header_parse_ok (count : bytes) :
  length count = 8%nat ->
  server_packet_header.parse ("K"%byte :: count)
  = Ok (server_packet_header.new (int_from_bytes count)).
Proof.
  intros Hlen. unfold server_packet_header.parse, slice. unfold_bind.
  cbn [getitem lookup list_lookup skipn Nat.sub].
  change (byte_to_int "K" =? ord_K) with true. cbn iota.
  rewrite drop_0, take_ge by lia. reflexivity.
Qed.

Lemma server_packet_parse_entries (hdr : server_packet_header.t)
    (entries : list frontier_entry.t) (tail : bytes) :
  Forall frontier_entry.well_formed entries ->
  server_packet_header.no_of_frontiers hdr = Z.of_nat (length entries) ->
  length tail = 64%nat ->
  server_packet.parse hdr
    (concat (frontier_entry.serialise <$> entries) ++ tail)
  = Ok (server_packet.new (Some <$> entries)).
Proof.
  intros Hwf Hn Htail.
  destruct (server_packet_parse_cases hdr
              (concat (frontier_entry.serialise <$> entries) ++ tail))
    as [[_ Hp]|[Hbad _]].
  - rewrite Hp, Hn, Nat2Z.id.
    pose proof (parse_loop_entries entries Hwf [] tail []) as Hloop.
    cbn [length app Nat.add] in Hloop. now rewrite Hloop.
  - exfalso. apply Hbad.
    rewrite length_app, length_concat_serialise, Htail, Hn by assumption.
    lia.
Qed.

(** C3.  For a list of N well-formed entries (N below 2^64, as the 8-byte
    count field and any Python list require), [server_packet.serialise]
    produces 9 + 64 * N + 64 bytes: a 9-byte header, the 64-byte records of
    the entries in order, and 64 zero bytes.  Parsing the first 9 bytes
    gives a header with count N, and parsing the rest against that header
    gives back a packet whose entries are the input entries in order. *)
Theorem server_packet_roundtrip (entries : list frontier_entry.t) :
  Forall frontier_entry.well_formed entries ->
  Z.of_nat (length entries) < 2 ^ 64 ->
  exists wire hdr s_packet,
    server_packet.serialise (server_packet.new (Some <$> entries)) = Ok wire
    /\ length wire = (9 + 64 * length entries + 64)%nat
    /\ drop 9 wire
       = concat (frontier_entry.serialise <$> entries) ++ zero_bytes 64
    /\ server_packet_header.parse (take 9 wire) = Ok hdr
    /\ server_packet_header.no_of_frontiers hdr = Z.of_nat (length entries)
    /\ server_packet.parse hdr (drop 9 wire) = Ok s_packet
    /\ server_packet.header s_packet = hdr
    /\ server_packet.frontiers s_packet = Some <$> entries.
Proof.
  intros Hwf Hlen.
  destruct (header_serialise_ok (Z.of_nat (length entries)))
    as (count & Hser & Hcount & Hval); [lia|].
  set (body := concat (frontier_entry.serialise <$> entries)).
  exists (("K"%byte :: count) ++ body ++ zero_bytes 64),
         (server_packet_header.new (Z.of_nat (length entries))),
         (server_packet.new (Some <$> entries)).
  assert (Hhead : length ("K"%byte :: count) = 9%nat)
    by (cbn [length]; now rewrite Hcount).
  assert (Htake : take 9 (("K"%byte :: count) ++ body ++ zero_bytes 64)
                  = "K"%byte :: count)
    by (rewrite <- Hhead; apply take_app_length).
  assert (Hdrop : drop 9 (("K"%byte :: count) ++ body ++ zero_bytes 64)
                  = body ++ zero_bytes 64)
    by (rewrite <- Hhead; apply drop_app_length).
  rewrite Htake, Hdrop. clear Htake Hdrop.
  repeat split.
  - unfold server_packet.serialise. unfold_bind.
    cbn [server_packet.header server_packet.frontiers server_packet.new].
    rewrite length_fmap, Hser. cbn [app].
    rewrite serialise_frontiers_entries. fold body.
    now rewrite <- app_assoc.
  - rewrite !length_app. subst body.
    rewrite length_concat_serialise by assumption.
    unfold zero_bytes. rewrite length_replicate. lia.
  - rewrite header_parse_ok by assumption. now rewrite Hval.
  - apply server_packet_parse_entries;
      [assumption | reflexivity | apply length_replicate].
  - cbn. now rewrite length_fmap.
Qed.

Lemma server_packet_roundtrip_witness :
  exists wire hdr s_packet,
    server_packet.serialise
      (server_packet.new
         (Some <$> [frontier_entry.new (replicate 32 x01) (replicate 32 xaa)]))
    = Ok wire
    /\ length wire = (9 + 64 * 1 + 64)%nat
    /\ drop 9 wire
       = concat (frontier_entry.serialise
                   <$> [frontier_entry.new (replicate 32 x01)
                                           (replicate 32 xaa)])
         ++ zero_bytes 64
    /\ server_packet_header.parse (take 9 wire) = Ok hdr
    /\ server_packet_header.no_of_frontiers hdr = 1
    /\ server_packet.parse hdr (drop 9 wire) = Ok s_packet
    /\ server_packet.header s_packet = hdr
    /\ server_packet.frontiers s_packet
       = Some <$> [frontier_entry.new (replicate 32 x01) (replicate 32 xaa)].
Proof.
  apply (server_packet_roundtrip
           [frontier_entry.new (replicate 32 x01) (replicate 32 xaa)]).
  - repeat constructor.
  - reflexivity.
Defined.

(** The i-th record read off a body is its i-th 64-byte chunk, split in
    two halves. *)
Lemma body_records_lookup (n : nat) (body : bytes) (i : nat) :
  (i < n)%nat ->
  body_records n body !! i
  = Some (frontier_entry.new (take 32 (drop (64 * i) body))
                             (take 32 (drop (64 * i + 32) body))).
Proof.
  revert body i. induction n as [|n IH]; intros body i Hi; [lia|].
  destruct i as [|i]; cbn [body_records lookup list_lookup].
  - reflexivity.
  - rewrite IH by lia. rewrite !drop_drop.
    replace (64 + 64 * i)%nat with (64 * S i)%nat by lia.
    replace (64 + (64 * i + 32))%nat with (64 * S i + 32)%nat by lia.
    reflexivity.
Qed.

(** C9.  [server_packet.parse] checks the length of the body and nothing
    else about its last 64 bytes: for a header with count n, any [body] of
    64 * n bytes and any 64-byte [tail], zero or not, parsing [body ++ tail]
    succeeds.  The packet returned carries the header count n and holds n
    entries; entry i has bytes 64i .. 64i+31 of [body] as its account and
    bytes 64i+32 .. 64i+63 as its hash, so the records of the entries
    concatenate to [body].  Parsing [body] followed by the all-zero
    terminator returns the same packet. *)
Theorem server_packet_parse_ignores_terminator
    (hdr : server_packet_header.t) (body tail : bytes) :
  Z.of_nat (length body) = 64 * server_packet_header.no_of_frontiers hdr ->
  length tail = 64%nat ->
  exists s_packet entries,
    server_packet.parse hdr (body ++ tail) = Ok s_packet
    /\ server_packet.frontiers s_packet = Some <$> entries
    /\ server_packet.header s_packet = hdr
    /\ Z.of_nat (length entries) = server_packet_header.no_of_frontiers hdr
    /\ (forall i, (i < length entries)%nat ->
          entries !! i
          = Some (frontier_entry.new
                    (take 32 (drop (64 * i) body))
                    (take 32 (drop (64 * i + 32) body))))
    /\ Forall frontier_entry.well_formed entries
    /\ concat (frontier_entry.serialise <$> entries) = body
    /\ server_packet.parse hdr (body ++ zero_bytes 64) = Ok s_packet.
Proof.
  intros Hbody Htail.
  set (n := Z.to_nat (server_packet_header.no_of_frontiers hdr)).
  destruct (body_records_spec n body) as (Hwf & Hn & Hcat); [lia|].
  assert (Hcount : server_packet_header.no_of_frontiers hdr
                   = Z.of_nat (length (body_records n body)))
    by (rewrite Hn; lia).
  assert (Hparse : forall t, length t = 64%nat ->
            server_packet.parse hdr (body ++ t)
            = Ok (server_packet.new (Some <$> body_records n body))).
  { intros t Ht. rewrite <- Hcat at 1.
    now apply server_packet_parse_entries. }
  exists (server_packet.new (Some <$> body_records n body)),
         (body_records n body).
  split; [now apply Hparse|].
  split; [reflexivity|].
  split.
  { cbn [server_packet.header server_packet.new].
    rewrite length_fmap, <- Hcount. now destruct hdr. }
  split; [lia|].
  split.
  { intros i Hi. apply body_records_lookup. lia. }
  split; [assumption|].
  split; [assumption|].
  apply Hparse. unfold zero_bytes. apply length_replicate.
Qed.

Lemma server_packet_parse_ignores_terminator_witness :
  exists s_packet entries,
    server_packet.parse (server_packet_header.new 1)
      (replicate 64 x07 ++ replicate 64 xff) = Ok s_packet
    /\ server_packet.frontiers s_packet = Some <$> entries
    /\ server_packet.header s_packet = server_packet_header.new 1
    /\ Z.of_nat (length entries) = 1
    /\ (forall i, (i < length entries)%nat ->
          entries !! i
          = Some (frontier_entry.new
                    (take 32 (drop (64 * i) (replicate 64 x07)))
                    (take 32 (drop (64 * i + 32) (replicate 64 x07)))))
    /\ Forall frontier_entry.well_formed entries
    /\ concat (frontier_entry.serialise <$> entries) = replicate 64 x07
    /\ server_packet.parse (server_packet_header.new 1)
         (replicate 64 x07 ++ zero_bytes 64) = Ok s_packet.
Proof.
  apply (server_packet_parse_ignores_terminator
           (server_packet_header.new 1) (replicate 64 x07)
           (replicate 64 xff)).
  - reflexivity.
  - reflexivity.
Defined.

(** A body of two records followed by 64 bytes of 0xff parses to the two
    entries, in order, under a header of count 2. *)
Example server_packet_parse_nonzero_terminator :
  server_packet.parse (server_packet_header.new 2)
    ((replicate 32 x01 ++ replicate 32 xaa)
     ++ (replicate 32 x02 ++ replicate 32 xbb) ++ replicate 64 xff)
  = Ok (server_packet.mk
          [Some (frontier_entry.new (replicate 32 x01) (replicate 32 xaa));
           Some (frontier_entry.new (replicate 32 x02) (replicate 32 xbb))]
          (server_packet_header.new 2)).
Proof. vm_compute. reflexivity. Qed.

(** ** The in-memory store *)

Section store_in_ram.
Import store_in_ram_interface.

Lemma find_frontier_cons (f : frontier_entry.t) (l : t) (a : bytes) :
  find_frontier (f :: l) a
  = if decide (frontier_entry.account f = a) then Some (0%nat, f)
    else prod_map S id <$> find_frontier l a.
Proof. reflexivity. Qed.

Lemma find_frontier_account (l : t) (a : bytes) (i : nat)
    (f : frontier_entry.t) :
  find_frontier l a = Some (i, f) -> frontier_entry.account f = a.
Proof. intros Hf. apply list_find_Some in Hf. tauto. Qed.

Lemma get_frontier_cons (f : frontier_entry.t) (l : t) (a : bytes) :
  get_frontier (f :: l) a
  = if decide (frontier_entry.account f = a) then Some f
    else get_frontier l a.
Proof.
  unfold get_frontier. rewrite find_frontier_cons.
  destruct (decide (frontier_entry.account f = a)); [reflexivity|].
  now destruct (find_frontier l a) as [[i e]|].
Qed.

(** Writing through the reference that the search returned changes the
    first entry of the account, in place. *)
Lemma add_frontier_cons (f : frontier_entry.t) (l : t)
    (frontier : frontier_entry.t) (peer : Peer.t) :
  add_frontier (f :: l) frontier peer
  = if decide (frontier_entry.account f = frontier_entry.account frontier)
    then frontier_entry.set_frontier_hash f
           (frontier_entry.frontier_hash frontier) :: l
    else f :: add_frontier l frontier peer.
Proof.
  unfold add_frontier. rewrite find_frontier_cons.
  destruct (decide (frontier_entry.account f
                    = frontier_entry.account frontier)); [reflexivity|].
  now destruct (find_frontier l (frontier_entry.account frontier))
    as [[i e]|].
Qed.

(** [list.remove] on the entry that the search returned drops the first
    entry of the account. *)
Lemma remove_frontier_cons (f : frontier_entry.t) (l : t)
    (frontier : frontier_entry.t) (peer : Peer.t) :
  remove_frontier (f :: l) frontier peer
  = if decide (frontier_entry.account f = frontier_entry.account frontier)
    then Ok l
    else l' ← remove_frontier l frontier peer; Ok (f :: l').
Proof.
  unfold remove_frontier, get_frontier. rewrite find_frontier_cons.
  destruct (decide (frontier_entry.account f
                    = frontier_entry.account frontier)) as [Heq|Hne].
  - cbn. now rewrite decide_True.
  - destruct (find_frontier l (frontier_entry.account frontier))
      as [[i e]|] eqn:Hfind; cbn; [|reflexivity].
    apply find_frontier_account in Hfind.
    rewrite decide_False by congruence. reflexivity.
Qed.

Lemma accounts_add_frontier (l : t) (frontier : frontier_entry.t)
    (peer : Peer.t) :
  history.accounts (add_frontier l frontier peer)
  = if decide (frontier_entry.account frontier ∈ history.accounts l)
    then history.accounts l
    else history.accounts l ++ [frontier_entry.account frontier].
Proof.
  unfold history.accounts.
  induction l as [|f l IH].
  - cbn. rewrite decide_False by apply not_elem_of_nil. reflexivity.
  - rewrite add_frontier_cons, fmap_cons.
    destruct (decide (frontier_entry.account f
                      = frontier_entry.account frontier)) as [Heq|Hne].
    + rewrite decide_True by (rewrite Heq; apply list_elem_of_here).
      reflexivity.
    + rewrite fmap_cons, IH.
      destruct (decide (frontier_entry.account frontier
                        ∈ frontier_entry.account <$> l)) as [Hin|Hnin].
      * rewrite decide_True by (now apply list_elem_of_further). reflexivity.
      * rewrite decide_False; [reflexivity|].
        intros Hin. apply elem_of_cons in Hin as [?|?]; congruence.
Qed.

Lemma get_frontier_add_frontier (l : t) (frontier : frontier_entry.t)
    (peer : Peer.t) :
  exists e,
    get_frontier (add_frontier l frontier peer)
                 (frontier_entry.account frontier) = Some e
    /\ frontier_entry.account e = frontier_entry.account frontier
    /\ frontier_entry.frontier_hash e
       = frontier_entry.frontier_hash frontier.
Proof.
  induction l as [|f l IH].
  - exists frontier.
    change (add_frontier [] frontier peer) with [frontier].
    rewrite get_frontier_cons. now rewrite decide_True.
  - rewrite add_frontier_cons.
    destruct (decide (frontier_entry.account f
                      = frontier_entry.account frontier)) as [Heq|Hne].
    + eexists. rewrite get_frontier_cons.
      rewrite decide_True by exact Heq. split; [reflexivity|]. now split.
    + rewrite get_frontier_cons. now rewrite decide_False.
Qed.

Lemma get_frontier_None (l : t) (a : bytes) :
  get_frontier l a = None <-> a ∉ history.accounts l.
Proof.
  unfold history.accounts. induction l as [|f l IH].
  - split; [intros _; apply not_elem_of_nil|reflexivity].
  - rewrite get_frontier_cons, fmap_cons, not_elem_of_cons.
    destruct (decide (frontier_entry.account f = a)) as [Heq|Hne].
    + split; [discriminate|]. intros [Hne _]. congruence.
    + rewrite IH. split; [intros ?; split; congruence|tauto].
Qed.

(** [remove_frontier] never raises: the entry it hands to [list.remove] is
    in the list.  Under the one-entry-per-account invariant the account is
    gone afterwards and nothing else changes. *)
Lemma remove_frontier_ok (l : t) (frontier : frontier_entry.t)
    (peer : Peer.t) :
  NoDup (history.accounts l) ->
  exists l',
    remove_frontier l frontier peer = Ok l'
    /\ NoDup (history.accounts l')
    /\ forall a, a ∈ history.accounts l'
                 <-> a ∈ history.accounts l
                     /\ a <> frontier_entry.account frontier.
Proof.
  unfold history.accounts. induction l as [|f l IH]; intros Hnd.
  - exists []. split; [reflexivity|]. split; [constructor|].
    intros a. cbn. rewrite elem_of_nil. tauto.
  - rewrite fmap_cons in Hnd. apply NoDup_cons in Hnd as [Hf Hnd].
    rewrite remove_frontier_cons.
    destruct (decide (frontier_entry.account f
                      = frontier_entry.account frontier)) as [Heq|Hne].
    + exists l. split; [reflexivity|]. split; [assumption|].
      intros a. rewrite fmap_cons, elem_of_cons. rewrite <- Heq.
      split; [|tauto]. intros Ha. split; [tauto|]. congruence.
    + destruct (IH Hnd) as (l' & Hr & Hnd' & Hin). rewrite Hr. cbn.
      exists (f :: l'). split; [reflexivity|]. rewrite fmap_cons. split.
      * apply NoDup_cons. split; [|assumption]. rewrite Hin. tauto.
      * intros a. rewrite !elem_of_cons, Hin.
        split; [|tauto]. intros [->|?]; tauto.
Qed.

Lemma NoDup_accounts_add_frontier (l : t) (frontier : frontier_entry.t)
    (peer : Peer.t) :
  NoDup (history.accounts l) ->
  NoDup (history.accounts (add_frontier l frontier peer)).
Proof.
  intros Hnd. rewrite accounts_add_frontier.
  destruct (decide (frontier_entry.account frontier ∈ history.accounts l))
    as [Hin|Hnin]; [assumption|].
  apply NoDup_app. split; [assumption|]. split.
  - intros a Ha Hb. apply list_elem_of_singleton in Hb. congruence.
  - apply NoDup_singleton.
Qed.

Lemma elem_of_accounts_add_frontier (l : t) (frontier : frontier_entry.t)
    (peer : Peer.t) (a : bytes) :
  a ∈ history.accounts (add_frontier l frontier peer)
  <-> a ∈ history.accounts l \/ a = frontier_entry.account frontier.
Proof.
  rewrite accounts_add_frontier.
  destruct (decide (frontier_entry.account frontier ∈ history.accounts l))
    as [Hin|Hnin].
  - split; [tauto|]. intros [? | ->]; assumption.
  - rewrite elem_of_app, list_elem_of_singleton. tauto.
Qed.

End store_in_ram.

(** ** Histories of the in-memory store *)

Lemma run_app (s : store_in_ram_interface.t) (ops1 ops2 : list history.operation) :
  history.run s (ops1 ++ ops2)
  = s' ← history.run s ops1; history.run s' ops2.
Proof.
  revert s. induction ops1 as [|op ops1 IH]; intros s; [reflexivity|].
  cbn [app history.run]. unfold_bind.
  destruct (history.apply s op) as [s'|e]; [apply IH|reflexivity].
Qed.

Lemma last_call_snoc (a : bytes) (ops : list history.operation)
    (op : history.operation) :
  history.last_call a (ops ++ [op])
  = if decide (history.account_of op = a) then Some op
    else history.last_call a ops.
Proof.
  unfold history.last_call. rewrite filter_app.
  destruct (decide (history.account_of op = a)) as [Heq|Hne].
  - rewrite filter_cons_True by exact Heq. apply last_snoc.
  - rewrite filter_cons_False by exact Hne. cbn. now rewrite app_nil_r.
Qed.

Lemma last_call_Some (a : bytes) (ops : list history.operation)
    (op : history.operation) :
  history.last_call a ops = Some op -> op ∈ ops /\ history.account_of op = a.
Proof.
  intros Hl. apply last_Some_elem_of, list_elem_of_filter in Hl. tauto.
Qed.

Lemma last_call_of_added (a : bytes) (ops : list history.operation) :
  a ∈ history.added_accounts ops ->
  exists op, history.last_call a ops = Some op.
Proof.
  unfold history.added_accounts. rewrite elem_of_remove_dups.
  intros Hin. apply list_elem_of_fmap in Hin as (op & -> & Hop).
  apply list_elem_of_filter in Hop as [_ Hop].
  destruct (history.last_call (history.account_of op) ops) as [op'|] eqn:E;
    [now exists op'|].
  apply last_None in E. exfalso.
  eapply (filter_nil_not_elem_of _ _ op E); [reflexivity|exact Hop].
Qed.

Lemma added_last_added (a : bytes) (ops : list history.operation) :
  history.added_last a ops = true -> a ∈ history.added_accounts ops.
Proof.
  unfold history.added_last, history.added_accounts.
  destruct (history.last_call a ops) as [op|] eqn:E; [|discriminate].
  intros Hadd. apply last_call_Some in E as [Hin <-].
  rewrite elem_of_remove_dups. apply list_elem_of_fmap_2.
  apply list_elem_of_filter. now split.
Qed.

(** The invariant of the in-memory store: whatever calls were made, no call
    raised, no account is stored twice, and the stored accounts are those
    whose most recent call is an addition. *)
Lemma run_invariant (ops : list history.operation) :
  exists s,
    history.run store_in_ram_interface.new ops = Ok s
    /\ NoDup (history.accounts s)
    /\ forall a, a ∈ history.accounts s <-> history.added_last a ops = true.
Proof.
  induction ops as [|op ops IH] using rev_ind.
  - exists []. split; [reflexivity|]. split; [constructor|].
    intros a. unfold history.accounts. cbn. rewrite elem_of_nil.
    split; [tauto|discriminate].
  - destruct IH as (s & Hrun & Hnd & Hin).
    rewrite run_app, Hrun. cbn [mbind result_bind history.run].
    unfold history.added_last in *.
    destruct op as [f p|f p]; cbn [history.apply].
    + exists (store_in_ram_interface.add_frontier s f p).
      split; [reflexivity|].
      split; [now apply NoDup_accounts_add_frontier|].
      intros a. rewrite elem_of_accounts_add_frontier, last_call_snoc.
      cbn [history.account_of]. rewrite Hin.
      destruct (decide (frontier_entry.account f = a)) as [Heq|Hne]; cbn.
      * split; [reflexivity|]. intros _. now right.
      * split; [|tauto]. intros [?|?]; [assumption|congruence].
    + destruct (remove_frontier_ok s f p Hnd) as (s' & Hr & Hnd' & Hin').
      exists s'. rewrite Hr. split; [reflexivity|]. split; [assumption|].
      intros a. rewrite Hin', last_call_snoc. cbn [history.account_of].
      rewrite Hin.
      destruct (decide (frontier_entry.account f = a)) as [Heq|Hne]; cbn.
      * split; [intros [_ ?]; congruence|discriminate].
      * split; [tauto|]. intros ?. split; [assumption|congruence].
Qed.

Lemma length_filter_split {A : Type} (P Q : A -> bool) (l : list A) :
  (forall a, a ∈ l -> P a = negb (Q a)) ->
  (length (filter (fun a => P a = true) l)
   + length (filter (fun a => Q a = true) l) = length l)%nat.
Proof.
  induction l as [|x l IH]; intros Hpq; [reflexivity|].
  assert (Hx : P x = negb (Q x)) by (apply Hpq, list_elem_of_here).
  assert (IH' := IH (fun a Ha => Hpq a (list_elem_of_further _ _ _ Ha))).
  destruct (Q x) eqn:Hq; cbn in Hx.
  - rewrite (filter_cons_False (fun a => P a = true)) by (rewrite Hx; discriminate).
    rewrite (filter_cons_True (fun a => Q a = true)) by exact Hq.
    cbn [length]. lia.
  - rewrite (filter_cons_True (fun a => P a = true)) by exact Hx.
    rewrite (filter_cons_False (fun a => Q a = true)) by (rewrite Hq; discriminate).
    cbn [length]. lia.
Qed.

(** C2.  Whatever calls were made on a fresh in-memory store, none of them
    raised and the store holds no account twice; and adding (A, H1) and
    then (A, H2) to a store makes [get_frontier A] return the entry
    (A, H2), again with no account stored twice after either call. *)
Theorem add_frontier_last_write_wins (ops : list history.operation)
    (A H1 H2 : bytes) (peer1 peer2 : Peer.t) :
  exists s,
    history.run store_in_ram_interface.new ops = Ok s
    /\ NoDup (history.accounts s)
    /\ let s1 := store_in_ram_interface.add_frontier s
                   (frontier_entry.new A H1) peer1 in
       let s2 := store_in_ram_interface.add_frontier s1
                   (frontier_entry.new A H2) peer2 in
       NoDup (history.accounts s1)
       /\ NoDup (history.accounts s2)
       /\ store_in_ram_interface.get_frontier s2 A
          = Some (frontier_entry.new A H2).
Proof.
  destruct (run_invariant ops) as (s & Hrun & Hnd & _).
  exists s. split; [assumption|]. split; [assumption|]. cbn zeta.
  split; [now apply NoDup_accounts_add_frontier|].
  split; [now do 2 apply NoDup_accounts_add_frontier|].
  destruct (get_frontier_add_frontier
              (store_in_ram_interface.add_frontier s
                 (frontier_entry.new A H1) peer1)
              (frontier_entry.new A H2) peer2) as (e & He & Ha & Hh).
  cbn [frontier_entry.account frontier_entry.frontier_hash] in He, Ha, Hh.
  rewrite He. destruct e as [a h]. cbn in Ha, Hh. now subst.
Qed.

(** C5 as stated fails: after adding an account, removing it and adding it
    again the store counts one frontier, while the distinct accounts ever
    added (one) minus those of them that were removed (one) is zero. *)
Lemma count_frontiers_readd_counterexample :
  let A := replicate 32 x01 in
  let H := replicate 32 xaa in
  let peer := Peer.new [] 7075 1000 in
  let ops := [history.add (frontier_entry.new A H) peer;
              history.remove (frontier_entry.new A H) peer;
              history.add (frontier_entry.new A H) peer] in
  (s ← history.run store_in_ram_interface.new ops;
   Ok (store_in_ram_interface.count_frontiers s)) = Ok 1
  /\ history.added_minus_removed ops = 0.
Proof. split; vm_compute; reflexivity. Qed.

(** C5, amended.  After any finite sequence of [add_frontier] and
    [remove_frontier] calls on a fresh in-memory store, none of which
    raises, [count_frontiers] is the number of distinct accounts ever added
    minus the number of those whose most recent call is a removal; updates
    of a stored account do not change it. *)
Theorem count_frontiers_added_minus_removed_last
    (ops : list history.operation) :
  exists s,
    history.run store_in_ram_interface.new ops = Ok s
    /\ store_in_ram_interface.count_frontiers s
       = history.added_minus_removed_last ops.
Proof.
  destruct (run_invariant ops) as (s & Hrun & Hnd & Hin).
  exists s. split; [assumption|].
  unfold store_in_ram_interface.count_frontiers,
    history.added_minus_removed_last.
  set (L := history.added_accounts ops).
  assert (Hperm : history.accounts s
                  ≡ₚ filter (fun a => history.added_last a ops = true) L).
  { apply NoDup_Permutation; [assumption| |].
    - apply NoDup_filter, NoDup_remove_dups.
    - intros a. rewrite Hin, list_elem_of_filter.
      split; [|tauto]. intros Ha. split; [assumption|].
      now apply added_last_added. }
  apply Permutation_length in Hperm.
  unfold history.accounts in Hperm. rewrite length_fmap in Hperm.
  pose proof (length_filter_split (fun a => history.added_last a ops)
                (fun a => history.removed_last a ops) L) as Hsplit.
  rewrite Hperm. rewrite <- Hsplit; [lia|].
  intros a Ha. apply last_call_of_added in Ha as [op Hop].
  unfold history.added_last, history.removed_last, history.is_remove.
  rewrite Hop. now destruct (history.is_add op).
Qed.

(** ** Blacklist *)

Lemma list_find_split {A : Type} (P : A -> Prop) `{forall x, Decision (P x)}
    (l : list A) (i : nat) (x : A) :
  list_find P l = Some (i, x) ->
  exists before after,
    l = before ++ x :: after /\ Forall (fun y => ~ P y) before /\ P x.
Proof.
  revert i. induction l as [|y l IH]; intros i; cbn; [discriminate|].
  destruct (decide (P y)) as [Hy|Hy].
  - intros [= <- <-]. exists [], l. repeat split; [constructor|assumption].
  - destruct (list_find P l) as [[j z]|]; cbn; [|discriminate].
    intros [= <- <-].
    destruct (IH j eq_refl) as (before & after & -> & Hb & Hx).
    exists (y :: before), after. repeat split; [|assumption].
    now constructor.
Qed.

Lemma list_remove_first {A : Type} `{EqDecision A} (x : A)
    (before after : list A) :
  Forall (fun y => y <> x) before ->
  list_remove x (before ++ x :: after) = Ok (before ++ after).
Proof.
  induction 1 as [|y before Hy _ IH]; cbn.
  - now rewrite decide_True.
  - rewrite decide_False by exact Hy. now rewrite IH.
Qed.

Section blacklist.
Context {A T : Type} `{PyEq A, Timestamp T, EqDecision A, EqDecision T}.
Import blacklist_manager.

(** The entry that [get_entry] returns is the first one whose item the
    given item equals. *)
Lemma get_entry_Some (self : blacklist_manager.t A T) (item : A)
    (entry : blacklist_entry.t A T) :
  get_entry self item = Some entry ->
  exists before after,
    blacklist self = before ++ entry :: after
    /\ Forall (fun b => py_eq item (blacklist_entry.item b) = false) before
    /\ py_eq item (blacklist_entry.item entry) = true.
Proof.
  unfold get_entry.
  destruct (list_find _ (blacklist self)) as [[i e]|] eqn:Hfind;
    [|discriminate].
  intros [= <-]. apply list_find_split in Hfind
    as (before & after & Hl & Hb & He).
  exists before, after. repeat split; try assumption.
  eapply Forall_impl; [exact Hb|]. intros b Hne. cbn in Hne.
  now destruct (py_eq item (blacklist_entry.item b)).
Qed.

Lemma remove_entry_found (self : blacklist_manager.t A T) (item : A)
    (entry : blacklist_entry.t A T) (before after : list _) :
  blacklist self = before ++ entry :: after ->
  Forall (fun b => py_eq item (blacklist_entry.item b) = false) before ->
  py_eq item (blacklist_entry.item entry) = true ->
  remove_entry self entry = Ok (set_blacklist self (before ++ after)).
Proof.
  intros Hl Hb He. unfold remove_entry. rewrite Hl.
  rewrite list_remove_first; [reflexivity|].
  eapply Forall_impl; [exact Hb|]. intros b Hf ->. congruence.
Qed.

(** Conversely, the first entry of the list whose item the given item
    equals is the one [get_entry] returns, and a list without such an
    entry gives [None]. *)
Lemma get_entry_first_match (self : blacklist_manager.t A T) (item : A)
    (entry : blacklist_entry.t A T) (before after : list _) :
  blacklist self = before ++ entry :: after ->
  Forall (fun b => py_eq item (blacklist_entry.item b) = false) before ->
  py_eq item (blacklist_entry.item entry) = true ->
  get_entry self item = Some entry.
Proof.
  intros Hl Hb He. unfold get_entry. rewrite Hl. clear Hl.
  induction Hb as [|b before Hf _ IH]; cbn.
  - now rewrite decide_True.
  - rewrite decide_False by congruence.
    destruct (list_find _ (before ++ entry :: after)) as [[i e]|];
      cbn in *; congruence.
Qed.

Lemma get_entry_no_match (self : blacklist_manager.t A T) (item : A) :
  Forall (fun b => py_eq item (blacklist_entry.item b) = false)
         (blacklist self) ->
  get_entry self item = None.
Proof.
  intros Hall. unfold get_entry.
  induction Hall as [|b l Hf _ IH]; cbn; [reflexivity|].
  rewrite decide_False by congruence.
  destruct (list_find _ l) as [[i e]|]; cbn in *; congruence.
Qed.

(** C6.  The three cases of [is_blacklisted], on the list of entries the
    manager holds.  When the item equals the item of no entry, the call
    answers false and returns the manager as it was.  When [entry] is the
    first entry whose item the item equals, with the entries [before] it
    and the entries [after] it: if a TTL is configured and
    now - inserted_at > TTL, the call answers false and the manager it
    leaves holds exactly [before ++ after], with the same TTL and the same
    item type; if no TTL is configured, or now - inserted_at > TTL does
    not hold, the call answers true and returns the manager as it was.
    No case raises. *)
Theorem is_blacklisted_lazy_expiry (now : T)
    (self : blacklist_manager.t A T) (item : A) :
  (Forall (fun b => py_eq item (blacklist_entry.item b) = false)
          (blacklist self) ->
   is_blacklisted now self item = Ok (self, false))
  /\ (forall before entry after,
        blacklist self = before ++ entry :: after ->
        Forall (fun b => py_eq item (blacklist_entry.item b) = false)
               before ->
        py_eq item (blacklist_entry.item entry) = true ->
        (forall ttl,
           expiry_time self = Some ttl ->
           time_gt (time_sub now (blacklist_entry.time entry)) ttl = true ->
           exists self',
             is_blacklisted now self item = Ok (self', false)
             /\ blacklist self' = before ++ after
             /\ expiry_time self' = Some ttl
             /\ object_type self' = object_type self)
        /\ (expiry_time self = None
            \/ (exists ttl,
                  expiry_time self = Some ttl
                  /\ time_gt (time_sub now (blacklist_entry.time entry)) ttl
                     = false) ->
            is_blacklisted now self item = Ok (self, true))).
Proof.
  split.
  - intros Hall. unfold is_blacklisted.
    now rewrite (get_entry_no_match self item Hall).
  - intros before entry after Hl Hb He.
    pose proof (get_entry_first_match self item entry before after Hl Hb He)
      as Hget.
    unfold is_blacklisted, blacklist_entry.has_expired. rewrite Hget.
    split.
    + intros ttl Httl Hexp. rewrite Httl, Hexp.
      rewrite (remove_entry_found self item entry before after Hl Hb He).
      exists (set_blacklist self (before ++ after)).
      split; [reflexivity|]. cbn. now rewrite Httl.
    + intros [Hnone|(ttl & Httl & Hexp)].
      * now rewrite Hnone.
      * now rewrite Httl, Hexp.
Qed.

(** C10.  [add_item] with an item of the configured type that already has
    an entry returns the manager as it was: same entries, same
    timestamps.  The entry found for the item afterwards is the one found
    before, and every later [is_blacklisted] answers as it would have
    without the second [add_item]. *)
Theorem add_item_already_blacklisted (now : T)
    (self : blacklist_manager.t A T) (item : A)
    (entry : blacklist_entry.t A T) :
  isinstance item (object_type self) = true ->
  get_entry self item = Some entry ->
  exists self',
    add_item now self item = Ok self'
    /\ self' = self
    /\ get_entry self' item = Some entry
    /\ forall later,
         is_blacklisted later self' item = is_blacklisted later self item.
Proof.
  intros Htype Hget. exists self. unfold add_item.
  rewrite Htype, Hget. cbn [negb]. now repeat split.
Qed.

End blacklist.

(** The blacklist of the service, [blacklist_manager(Peer, 1800)], with one
    peer listed at second 100: still listed at second 1900, dropped by the
    lookup at second 1901. *)
Example is_blacklisted_before_ttl :
  let p := Peer.new [x7f; x00; x00; x01] 7075 1000 in
  let self : blacklist_manager.t Peer.t Z :=
    blacklist_manager.mk [blacklist_entry.new p 100] (fun _ => true)
                         (Some 1800) in
  blacklist_manager.is_blacklisted 1900 self p = Ok (self, true).
Proof. vm_compute. reflexivity. Qed.

Example is_blacklisted_after_ttl :
  let p := Peer.new [x7f; x00; x00; x01] 7075 1000 in
  let self : blacklist_manager.t Peer.t Z :=
    blacklist_manager.mk [blacklist_entry.new p 100] (fun _ => true)
                         (Some 1800) in
  blacklist_manager.is_blacklisted 1901 self p
  = Ok (blacklist_manager.set_blacklist self [], false).
Proof. vm_compute. reflexivity. Qed.

(** The same blacklist holding three peers: a look-up of the second one
    1801 seconds after it was listed drops that entry alone and keeps the
    other two in their order; a look-up 1800 seconds after it was listed
    leaves the three entries. *)
Example is_blacklisted_drops_expired_entry :
  let a := Peer.new [x7f; x00; x00; x01] 7075 1000 in
  let b := Peer.new [x7f; x00; x00; x02] 7075 1000 in
  let c := Peer.new [x7f; x00; x00; x03] 7075 1000 in
  let self : blacklist_manager.t Peer.t Z :=
    blacklist_manager.mk
      [blacklist_entry.new a 5000; blacklist_entry.new b 100;
       blacklist_entry.new c 5000] (fun _ => true) (Some 1800) in
  blacklist_manager.is_blacklisted 1901 self b
  = Ok (blacklist_manager.mk
          [blacklist_entry.new a 5000; blacklist_entry.new c 5000]
          (fun _ => true) (Some 1800), false)
  /\ blacklist_manager.is_blacklisted 1900 self b = Ok (self, true).
Proof. split; vm_compute; reflexivity. Qed.

Lemma add_item_already_blacklisted_witness :
  let p := Peer.new [x7f; x00; x00; x01] 7075 1000 in
  let self : blacklist_manager.t Peer.t Z :=
    blacklist_manager.mk [blacklist_entry.new p 100] (fun _ => true)
                         (Some 1800) in
  exists self',
    blacklist_manager.add_item 500 self p = Ok self'
    /\ self' = self
    /\ blacklist_manager.get_entry self' p = Some (blacklist_entry.new p 100)
    /\ forall later,
         blacklist_manager.is_blacklisted later self' p
         = blacklist_manager.is_blacklisted later self p.
Proof.
  cbv zeta.
  apply (add_item_already_blacklisted 500
           (blacklist_manager.mk
              [blacklist_entry.new (Peer.new [x7f; x00; x00; x01] 7075 1000)
                                   100] (fun _ => true) (Some 1800))
           (Peer.new [x7f; x00; x00; x01] 7075 1000)
           (blacklist_entry.new (Peer.new [x7f; x00; x00; x01] 7075 1000)
                                100)).
  - reflexivity.
  - vm_compute. reflexivity.
Defined.

(** ** Query server *)

(** The empty result set on the wire: a header with count 0 and the
    terminator, 73 bytes in all. *)
Lemma empty_result_set :
  server_packet.serialise (server_packet.new [])
  = Ok ("K"%byte :: zero_bytes 8 ++ zero_bytes 64).
Proof. reflexivity. Qed.

Lemma serialise_None_raises :
  server_packet.serialise (server_packet.new [None]) = Raise AttributeError.
Proof. reflexivity. Qed.

(** C1.  What [comm_thread] does on a well-formed request for an account
    that is not all-zero and that the in-memory store does not hold: the
    lookup returns [None], the packet is built from the one-element list
    holding [None], and serialising it raises [AttributeError].  Nothing
    is sent, in particular not the 73-byte empty result set, and the
    connection is closed. *)
Theorem comm_thread_unknown_account
    (self : frontier_service.t store_in_ram_interface.t) (account : bytes) :
  length account = 32%nat ->
  account <> zero_bytes 32 ->
  store_in_ram_interface.get_frontier
    (frontier_service.database_interface self) account = None ->
  frontier_service.comm_thread self
    (socket.mk ("K"%byte :: account) [] false)
  = (socket.mk [] [] true, Raise AttributeError).
Proof.
  intros Hlen Hnz Hget.
  unfold frontier_service.comm_thread, socket.with_, socket.recv.
  cbn [socket.incoming socket.outgoing socket.closed].
  rewrite take_ge by (cbn [length]; lia).
  rewrite client_packet_parse_ok by assumption.
  cbn [mbind result_bind].
  unfold client_packet.is_all_zero.
  cbn [client_packet.account client_packet.new].
  rewrite bool_decide_eq_false_2 by assumption.
  cbn [get_frontier store_in_ram_database]. rewrite Hget.
  cbn [mbind result_bind]. rewrite serialise_None_raises. unfold socket.close.
  cbn [socket.incoming socket.outgoing socket.closed].
  rewrite drop_ge by (cbn [length]; lia). reflexivity.
Qed.

Lemma comm_thread_unknown_account_witness :
  frontier_service.comm_thread
    (frontier_service.mk store_in_ram_interface.new [] false)
    (socket.mk ("K"%byte :: replicate 32 x01) [] false)
  = (socket.mk [] [] true, Raise AttributeError).
Proof.
  apply (comm_thread_unknown_account
           (frontier_service.mk store_in_ram_interface.new [] false)
           (replicate 32 x01)).
  - reflexivity.
  - vm_compute. discriminate.
  - reflexivity.
Defined.

(** The two end-to-end scenarios of the protocol on the in-memory store:
    the all-zero request on an empty store is answered by the empty result
    set, and a request for a stored account by that one record. *)
Example comm_thread_all_zero_empty_store :
  frontier_service.comm_thread
    (frontier_service.mk store_in_ram_interface.new [] false)
    (socket.mk ("K"%byte :: zero_bytes 32) [] false)
  = (socket.mk [] ("K"%byte :: zero_bytes 8 ++ zero_bytes 64) true, Ok tt).
Proof. reflexivity. Qed.

Example comm_thread_known_account :
  let account := replicate 32 x01 in
  let hash := replicate 32 xaa in
  frontier_service.comm_thread
    (frontier_service.mk [frontier_entry.new account hash] [] false)
    (socket.mk ("K"%byte :: account) [] false)
  = (socket.mk []
       ("K"%byte :: (zero_bytes 7 ++ [x01])
        ++ (account ++ hash) ++ zero_bytes 64) true,
     Ok tt).
Proof. vm_compute. reflexivity. Qed.

(** ** Crawl pass *)

Section crawl.
Context {DB : Type} `{frontier_database DB}.
Import frontier_service.

(** The contract of [add_frontier]: it does not raise. *)
Hypothesis add_frontier_total :
  forall (db : DB) (f : frontier_entry.t) (p : Peer.t),
    exists db', add_frontier db f p = Ok db'.

Lemma add_fronts_from_iter_outcome (fronts : list frontier_entry.t)
    (db : DB) (stop : option exception) (peer : Peer.t) :
  exists db',
    add_fronts_from_iter db fronts stop peer
    = (db', match stop with None => Ok tt | Some e => Raise e end).
Proof.
  revert db. induction fronts as [|front fronts IH]; intros db.
  - exists db. cbn. now destruct stop.
  - cbn [add_fronts_from_iter].
    destruct (add_frontier_total db front peer) as [db' ->]. apply IH.
Qed.


(** An exception outside the [except] clause leaves the loop at once: the
    peer keeps its score and the peers after it are not visited. *)
Lemma single_pass_loop_uncaught (network : Peer.t -> pull_outcome) (db : DB)
    (p : Peer.t) (rest : list Peer.t) (e : exception) :
  snd (network p) = Some e ->
  caught e = false ->
  exists db',
    single_pass_loop network db (p :: rest) = (db', p :: rest, Raise e).
Proof.
  intros Hstop Hnot. cbn [single_pass_loop]. unfold manage_peer_frontiers.
  destruct (network p) as [fronts stop]. cbn [snd] in Hstop. subst stop.
  destruct (add_fronts_from_iter_outcome fronts db (Some e) p) as [db1 ->].
  rewrite Hnot. now exists db1.
Qed.



End crawl.




(** * Further properties *)

(** ** Response headers *)

Lemma byte_to_int_bound (b : byte) : 0 <= byte_to_int b < 256.
Proof.
  unfold byte_to_int. pose proof (Byte.to_N_bounded b). lia.
Qed.

Lemma int_from_bytes_bound (data : bytes) :
  0 <= int_from_bytes data < 256 ^ Z.of_nat (length data).
Proof.
  induction data as [|b data IH] using rev_ind.
  - cbn. lia.
  - rewrite int_from_bytes_snoc, length_app. cbn [length].
    replace (Z.of_nat (length data + 1)) with (Z.succ (Z.of_nat (length data)))
      by lia.
    rewrite Z.pow_succ_r by lia.
    pose proof (byte_to_int_bound b). nia.
Qed.

Lemma int_to_bytes_overflow (n : Z) (len : nat) :
  ~ 0 <= n < 256 ^ Z.of_nat len ->
  int_to_bytes n len = Raise OverflowError.
Proof.
  intros Hout. unfold int_to_bytes.
  destruct (0 <=? n) eqn:H0; destruct (n <? 256 ^ Z.of_nat len) eqn:H1;
    try reflexivity.
  apply Z.leb_le in H0. apply Z.ltb_lt in H1. lia.
Qed.


Lemma header_parse_cases (data : bytes) :
  server_packet_header.parse data
  = match data with
    | [] => Raise IndexError
    | b :: rest =>
        if decide (b = "K"%byte)
        then Ok (server_packet_header.new (int_from_bytes (take 8 rest)))
        else Raise AssertionError
    end.
Proof.
  unfold server_packet_header.parse, getitem, slice. unfold_bind.
  destruct data as [|b rest]; [reflexivity|]. cbn [lookup list_lookup].
  destruct (decide (b = "K"%byte)) as [->|Hne].
  - change (byte_to_int "K" =? ord_K) with true. cbn iota.
    cbn [skipn Nat.sub]. now rewrite drop_0.
  - destruct (byte_to_int b =? ord_K) eqn:Hb; [|reflexivity].
    apply Z.eqb_eq, byte_to_int_K in Hb. contradiction.
Qed.

(** X1.  A header with a count from 0 to 2^64 - 1 serialises to 9 bytes,
    and parsing those bytes, whatever bytes follow them, gives the header
    back. *)
Theorem server_packet_header_roundtrip (n : Z) :
  0 <= n < 2 ^ 64 ->
  exists data,
    server_packet_header.serialise (server_packet_header.new n) = Ok data
    /\ length data = 9%nat
    /\ forall rest,
         server_packet_header.parse (data ++ rest)
         = Ok (server_packet_header.new n).
Proof.
  intros Hn.
  destruct (header_serialise_ok n Hn) as (count & Hser & Hlen & Hval).
  exists ("K"%byte :: count). split; [exact Hser|].
  split; [cbn [length]; now rewrite Hlen|].
  intros rest. rewrite header_parse_cases. cbn [app].
  rewrite decide_True by reflexivity.
  rewrite take_app_length' by (symmetry; exact Hlen). now rewrite Hval.
Qed.

Lemma server_packet_header_roundtrip_witness :
  exists data,
    server_packet_header.serialise (server_packet_header.new 1025) = Ok data
    /\ length data = 9%nat
    /\ forall rest,
         server_packet_header.parse (data ++ rest)
         = Ok (server_packet_header.new 1025).
Proof. apply (server_packet_header_roundtrip 1025). lia. Defined.

(** X2.  Serialising a header raises [OverflowError] exactly when the count
    is negative or needs more than 8 bytes, and returns bytes exactly
    otherwise. *)
Theorem server_packet_header_serialise_overflow (n : Z) :
  (server_packet_header.serialise (server_packet_header.new n)
   = Raise OverflowError <-> (n < 0 \/ 2 ^ 64 <= n))
  /\ ((exists data,
         server_packet_header.serialise (server_packet_header.new n)
         = Ok data) <-> 0 <= n < 2 ^ 64).
Proof.
  destruct (decide (0 <= n < 2 ^ 64)) as [Hin|Hout].
  - destruct (header_serialise_ok n Hin) as (count & Hser & _).
    rewrite Hser. split; split.
    + discriminate.
    + lia.
    + intros _. exact Hin.
    + intros _. eauto.
  - assert (Hser : server_packet_header.serialise (server_packet_header.new n)
                   = Raise OverflowError).
    { unfold server_packet_header.serialise. unfold_bind.
      change (int_to_bytes ord_K 1) with (Ok ["K"%byte] : result bytes).
      cbn [server_packet_header.no_of_frontiers].
      now rewrite int_to_bytes_overflow. }
    rewrite Hser. split; split.
    + intros _. lia.
    + reflexivity.
    + intros [data Hd]. discriminate.
    + intros Hin. contradiction.
Qed.

(** X3.  [server_packet_header.parse] checks the magic byte and nothing
    else: empty data raises [IndexError], a wrong first byte raises
    [AssertionError], and any data that starts with 'K' is accepted, short
    or long, with the count read from the up to 8 bytes after the magic;
    the count it returns is always from 0 to 2^64 - 1. *)
Theorem server_packet_header_parse_unchecked_length (data : bytes) :
  (data = [] -> server_packet_header.parse data = Raise IndexError)
  /\ (forall b, data !! 0%nat = Some b -> b <> "K"%byte ->
        server_packet_header.parse data = Raise AssertionError)
  /\ (data !! 0%nat = Some "K"%byte ->
        server_packet_header.parse data
        = Ok (server_packet_header.new
                (int_from_bytes (take 8 (drop 1 data)))))
  /\ (forall hdr, server_packet_header.parse data = Ok hdr ->
        0 <= server_packet_header.no_of_frontiers hdr < 2 ^ 64).
Proof.
  rewrite header_parse_cases. split; [|split; [|split]].
  - intros ->. reflexivity.
  - intros b Hb Hne. destruct data as [|b' rest]; [discriminate|].
    cbn in Hb. injection Hb as ->. now rewrite decide_False.
  - intros Hb. destruct data as [|b' rest]; [discriminate|].
    cbn in Hb. injection Hb as ->. rewrite decide_True by reflexivity.
    cbn [skipn]. now rewrite drop_0.
  - intros hdr. destruct data as [|b rest]; [discriminate|].
    destruct (decide (b = "K"%byte)); [|discriminate].
    intros [= <-]. cbn [server_packet_header.no_of_frontiers].
    pose proof (int_from_bytes_bound (take 8 rest)) as [Ha Hb].
    split; [exact Ha|].
    eapply Z.lt_le_trans; [exact Hb|].
    change (2 ^ 64) with (256 ^ 8).
    apply Z.pow_le_mono_r; [lia|]. rewrite length_take. lia.
Qed.

(** ** Query server and client helpers *)

Section query_server.
Context {DB : Type} `{frontier_database DB}.

(** The reply that [comm_thread] computes for the bytes it received. *)
Lemma comm_thread_unfold (self : frontier_service.t DB) (s : socket.t) :
  frontier_service.comm_thread self s
  = match
      c_packet ← client_packet.parse (take 33 (socket.incoming s));
      if client_packet.is_all_zero c_packet then
        frontiers ← get_all (frontier_service.database_interface self);
        server_packet.serialise (server_packet.new (Some <$> frontiers))
      else
        frontier ← get_frontier (frontier_service.database_interface self)
                                (client_packet.account c_packet);
        server_packet.serialise (server_packet.new [frontier])
    with
    | Ok out =>
        (socket.mk (drop 33 (socket.incoming s)) (socket.outgoing s ++ out)
                   true, Ok tt)
    | Raise e =>
        (socket.mk (drop 33 (socket.incoming s)) (socket.outgoing s) true,
         Raise e)
    end.
Proof.
  unfold frontier_service.comm_thread, socket.with_, socket.recv.
  match goal with |- context [match ?r with Ok _ => _ | Raise _ => _ end] =>
    destruct r end; reflexivity.
Qed.




(** X5.  [comm_thread] looks at what [recv(33)] returns, the first 33
    bytes received or all of them when fewer arrived.  When these are
    fewer than 33 bytes or do not start with 'K', it raises
    [AssertionError]: the connection is closed and nothing is written,
    whatever the backend and whatever bytes follow the first 33.  This
    does not cover a request longer than 33 bytes whose first 33 bytes
    are well-formed: that one is answered. *)
Theorem comm_thread_rejects_malformed_request (self : frontier_service.t DB)
    (s : socket.t) :
  length (take 33 (socket.incoming s)) <> 33%nat
  \/ take 33 (socket.incoming s) !! 0%nat <> Some "K"%byte ->
  frontier_service.comm_thread self s
  = (socket.mk (drop 33 (socket.incoming s)) (socket.outgoing s) true,
     Raise AssertionError).
Proof.
  intros Hbad. rewrite comm_thread_unfold.
  destruct (client_packet_parse_cases (take 33 (socket.incoming s)))
    as [(Hl & Hb & _)|[_ ->]]; [|reflexivity].
  destruct Hbad; contradiction.
Qed.

End query_server.

Lemma comm_thread_rejects_malformed_request_witness :
  frontier_service.comm_thread
    (frontier_service.mk store_in_ram_interface.new [] false)
    (socket.mk ("Q"%byte :: zero_bytes 32) [] false)
  = (socket.mk [] [] true, Raise AssertionError).
Proof.
  apply (comm_thread_rejects_malformed_request
           (frontier_service.mk store_in_ram_interface.new [] false)
           (socket.mk ("Q"%byte :: zero_bytes 32) [] false)).
  right. cbn. discriminate.
Defined.

(** A request of 40 bytes whose first 33 bytes are 'K' and the all-zero
    account is answered, by the empty store with the 73-byte packet of
    count 0; a request of 32 bytes, 'K' and 31 zero bytes, is rejected. *)
Example comm_thread_overlong_request_answered :
  frontier_service.comm_thread
    (frontier_service.mk store_in_ram_interface.new [] false)
    (socket.mk ("K"%byte :: zero_bytes 32 ++ replicate 7 xff) [] false)
  = (socket.mk (replicate 7 xff)
       ("K"%byte :: zero_bytes 8 ++ zero_bytes 64) true, Ok tt).
Proof. vm_compute. reflexivity. Qed.

Example comm_thread_short_request_rejected :
  frontier_service.comm_thread
    (frontier_service.mk store_in_ram_interface.new [] false)
    (socket.mk ("K"%byte :: zero_bytes 31) [] false)
  = (socket.mk [] [] true, Raise AssertionError).
Proof. vm_compute. reflexivity. Qed.

Lemma server_packet_serialise_wire (entries : list frontier_entry.t) :
  Z.of_nat (length entries) < 2 ^ 64 ->
  exists count,
    server_packet.serialise (server_packet.new (Some <$> entries))
    = Ok (("K"%byte :: count)
          ++ concat (frontier_entry.serialise <$> entries) ++ zero_bytes 64)
    /\ length count = 8%nat
    /\ int_from_bytes count = Z.of_nat (length entries).
Proof.
  intros Hlen.
  destruct (header_serialise_ok (Z.of_nat (length entries)))
    as (count & Hser & Hcount & Hval); [lia|].
  exists count. split; [|now split].
  unfold server_packet.serialise. unfold_bind.
  cbn [server_packet.header server_packet.frontiers server_packet.new].
  rewrite length_fmap, Hser. cbn [app].
  rewrite serialise_frontiers_entries. now rewrite <- app_assoc.
Qed.

Lemma read_socket_exact (short_read : exception) (pre rest out : bytes)
    (closed : bool) (numbytes : Z) :
  Z.of_nat (length pre) = numbytes ->
  client.read_socket short_read (socket.mk (pre ++ rest) out closed) numbytes
  = (socket.mk rest out closed, Ok pre).
Proof.
  intros <-. unfold client.read_socket.
  cbn [socket.incoming socket.outgoing socket.closed].
  rewrite length_app, Nat2Z.id.
  replace (Z.of_nat (length pre + length rest) <? Z.of_nat (length pre))
    with false by (symmetry; apply Z.ltb_ge; lia).
  now rewrite take_app_length, drop_app_length.
Qed.

(** What the client reads back from a reply made of a header for
    [entries], their records and a 64-byte tail, when the size it asks for
    after the header is the size of that body. *)
Lemma client_reads_reply (short_read : exception) (request count : bytes)
    (entries : list frontier_entry.t) (closed : bool)
    (numbytes : server_packet_header.t -> Z) :
  Forall frontier_entry.well_formed entries ->
  length count = 8%nat ->
  int_from_bytes count = Z.of_nat (length entries) ->
  numbytes (server_packet_header.new (Z.of_nat (length entries)))
  = 64 * Z.of_nat (length entries) + 64 ->
  (let '(s, hdr_data) :=
     client.read_socket short_read
       (socket.mk (("K"%byte :: count)
                   ++ concat (frontier_entry.serialise <$> entries)
                   ++ zero_bytes 64) request closed) 9 in
   hdr_data ← hdr_data;
   s_hdr ← server_packet_header.parse hdr_data;
   let '(s, front_data) := client.read_socket short_read s (numbytes s_hdr) in
   front_data ← front_data;
   server_packet.parse s_hdr front_data)
  = Ok (server_packet.new (Some <$> entries)).
Proof.
  intros Hwf Hcount Hval Hsize.
  rewrite read_socket_exact by (cbn [length]; lia).
  cbn [mbind result_bind]. rewrite header_parse_ok, Hval by assumption.
  cbn [mbind result_bind].
  rewrite <- (app_nil_r (concat _ ++ zero_bytes 64)).
  rewrite read_socket_exact.
  - cbn [mbind result_bind].
    apply server_packet_parse_entries;
      [assumption | reflexivity | apply length_replicate].
  - rewrite Hsize, length_app, length_concat_serialise by assumption.
    unfold zero_bytes. rewrite length_replicate. lia.
Qed.

Section client_of_ram_service.
Variable short_read : exception.
Variable self : frontier_service.t store_in_ram_interface.t.


Lemma serve_account (account : bytes) :
  length account = 32%nat ->
  account <> zero_bytes 32 ->
  serve self ("K"%byte :: account)
  = match server_packet.serialise
            (server_packet.new
               [store_in_ram_interface.get_frontier
                  (frontier_service.database_interface self) account]) with
    | Ok out => out
    | Raise _ => []
    end.
Proof.
  intros Hlen Hnz. unfold serve. rewrite comm_thread_unfold.
  cbn [socket.incoming socket.outgoing].
  rewrite take_ge by (cbn [length]; lia).
  rewrite client_packet_parse_ok by assumption.
  cbn [mbind result_bind]. unfold client_packet.is_all_zero.
  cbn [client_packet.account client_packet.new].
  rewrite bool_decide_eq_false_2 by assumption.
  cbn [get_frontier store_in_ram_database mbind result_bind].
  now destruct (server_packet.serialise _).
Qed.


(** X7.  Single lookup, end to end: against a service on the in-memory
    store, asking for a stored 32-byte account that is not all-zero returns
    a packet holding exactly the stored entry of that account. *)
Theorem get_accounts_frontier_returns_entry (account : bytes)
    (f : frontier_entry.t) :
  length account = 32%nat ->
  account <> zero_bytes 32 ->
  store_in_ram_interface.get_frontier
    (frontier_service.database_interface self) account = Some f ->
  frontier_entry.well_formed f ->
  client.get_accounts_frontier_packet_from_service short_read (serve self)
    account
  = Ok (server_packet.new [Some f]).
Proof.
  intros Hlen Hnz Hget Hwf.
  unfold client.get_accounts_frontier_packet_from_service, client.connected.
  rewrite Hlen. cbn [assert Z.eqb Z.of_nat Pos.of_succ_nat Pos.succ Pos.eqb
                     mbind result_bind].
  rewrite client_packet_serialise_eq. cbn [mbind result_bind].
  cbn [client_packet.account client_packet.new].
  rewrite serve_account, Hget by assumption.
  destruct (server_packet_serialise_wire [f]) as (count & Hser & Hc & Hv);
    [cbn; lia|].
  change (Some <$> [f]) with [Some f] in Hser. rewrite Hser.
  apply (client_reads_reply short_read ("K"%byte :: account) count [f] false
           (fun _ => 128));
    [now constructor | assumption | assumption | reflexivity].
Qed.

(** X8.  Against a service on the in-memory store, asking for a 32-byte
    account that is not all-zero and that the store does not hold fails
    with the short-read error: the service has closed the connection
    without writing a byte. *)
Theorem get_accounts_frontier_unknown_account (account : bytes) :
  length account = 32%nat ->
  account <> zero_bytes 32 ->
  store_in_ram_interface.get_frontier
    (frontier_service.database_interface self) account = None ->
  serve self ("K"%byte :: account) = []
  /\ client.get_accounts_frontier_packet_from_service short_read (serve self)
       account
     = Raise short_read.
Proof.
  intros Hlen Hnz Hget.
  assert (Hserve : serve self ("K"%byte :: account) = [])
    by (rewrite serve_account, Hget by assumption; reflexivity).
  split; [exact Hserve|].
  unfold client.get_accounts_frontier_packet_from_service, client.connected.
  rewrite Hlen. cbn [assert Z.eqb Z.of_nat Pos.of_succ_nat Pos.succ Pos.eqb
                     mbind result_bind].
  rewrite client_packet_serialise_eq. cbn [mbind result_bind].
  cbn [client_packet.account client_packet.new].
  rewrite Hserve. reflexivity.
Qed.

End client_of_ram_service.


Lemma get_accounts_frontier_returns_entry_witness :
  let f := frontier_entry.new (replicate 32 x01) (replicate 32 xaa) in
  client.get_accounts_frontier_packet_from_service ValueError
    (serve (frontier_service.mk [f] [] false)) (replicate 32 x01)
  = Ok (server_packet.new [Some f]).
Proof.
  cbv zeta.
  apply (get_accounts_frontier_returns_entry ValueError
           (frontier_service.mk
              [frontier_entry.new (replicate 32 x01) (replicate 32 xaa)]
              [] false)
           (replicate 32 x01)
           (frontier_entry.new (replicate 32 x01) (replicate 32 xaa))).
  - reflexivity.
  - vm_compute. discriminate.
  - vm_compute. reflexivity.
  - now split.
Defined.

Lemma get_accounts_frontier_unknown_account_witness :
  let self := frontier_service.mk store_in_ram_interface.new [] false in
  serve self ("K"%byte :: replicate 32 x01) = []
  /\ client.get_accounts_frontier_packet_from_service ValueError (serve self)
       (replicate 32 x01)
     = Raise ValueError.
Proof.
  cbv zeta.
  apply (get_accounts_frontier_unknown_account ValueError
           (frontier_service.mk store_in_ram_interface.new [] false)
           (replicate 32 x01)).
  - reflexivity.
  - vm_compute. discriminate.
  - reflexivity.
Defined.

(** ** The in-memory store: lookups after a call *)

Section store_in_ram_lookup.
Import store_in_ram_interface.

Lemma get_frontier_after_add (l : t) (frontier : frontier_entry.t)
    (peer : Peer.t) (a : bytes) :
  get_frontier (add_frontier l frontier peer) a
  = if decide (a = frontier_entry.account frontier)
    then Some (frontier_entry.new a (frontier_entry.frontier_hash frontier))
    else get_frontier l a.
Proof.
  induction l as [|g l IH].
  - change (add_frontier [] frontier peer) with [frontier].
    rewrite get_frontier_cons.
    destruct (decide (a = frontier_entry.account frontier)) as [->|Hne].
    + rewrite decide_True by reflexivity. now destruct frontier.
    + rewrite decide_False by congruence. reflexivity.
  - rewrite add_frontier_cons.
    destruct (decide (frontier_entry.account g
                      = frontier_entry.account frontier)) as [Heq|Hne].
    + rewrite !get_frontier_cons. cbn [frontier_entry.account
                                       frontier_entry.set_frontier_hash].
      destruct (decide (a = frontier_entry.account frontier)) as [->|Ha].
      * rewrite decide_True by exact Heq. unfold frontier_entry.set_frontier_hash.
        now rewrite Heq.
      * rewrite !decide_False by congruence. reflexivity.
    + rewrite !get_frontier_cons, IH.
      destruct (decide (frontier_entry.account g = a)) as [Hg|Hg];
        [|reflexivity].
      rewrite decide_False by congruence. reflexivity.
Qed.

Lemma length_add_frontier (l : t) (frontier : frontier_entry.t)
    (peer : Peer.t) :
  length (add_frontier l frontier peer)
  = match get_frontier l (frontier_entry.account frontier) with
    | Some _ => length l
    | None => S (length l)
    end.
Proof.
  unfold add_frontier, get_frontier.
  destruct (find_frontier l (frontier_entry.account frontier))
    as [[i e]|]; cbn.
  - apply length_insert.
  - rewrite length_app. cbn. lia.
Qed.

(** X9.  What one [add_frontier] does to the in-memory store, for any
    store: the account of the entry is afterwards found with the new hash,
    every other account is found exactly as before, the count grows by one
    if the account was not stored and stays the same if it was, and the
    storage order is kept, a new account going to the end. *)
Theorem add_frontier_effect (l : t) (frontier : frontier_entry.t)
    (peer : Peer.t) :
  let l' := add_frontier l frontier peer in
  get_frontier l' (frontier_entry.account frontier)
  = Some (frontier_entry.new (frontier_entry.account frontier)
                             (frontier_entry.frontier_hash frontier))
  /\ (forall a, a <> frontier_entry.account frontier ->
                get_frontier l' a = get_frontier l a)
  /\ count_frontiers l'
     = match get_frontier l (frontier_entry.account frontier) with
       | Some _ => count_frontiers l
       | None => count_frontiers l + 1
       end
  /\ frontier_entry.account <$> get_all l'
     = match get_frontier l (frontier_entry.account frontier) with
       | Some _ => frontier_entry.account <$> get_all l
       | None => (frontier_entry.account <$> get_all l)
                 ++ [frontier_entry.account frontier]
       end.
Proof.
  cbv zeta. split; [|split; [|split]].
  - rewrite get_frontier_after_add. now rewrite decide_True.
  - intros a Ha. rewrite get_frontier_after_add. now rewrite decide_False.
  - unfold count_frontiers. rewrite length_add_frontier.
    destruct (get_frontier l _); lia.
  - unfold get_all.
    pose proof (accounts_add_frontier l frontier peer) as Hacc.
    unfold history.accounts in Hacc. rewrite Hacc.
    destruct (get_frontier l (frontier_entry.account frontier)) eqn:Hget.
    + rewrite decide_True; [reflexivity|].
      destruct (decide (frontier_entry.account frontier
                        ∈ frontier_entry.account <$> l)) as [Hin|Hnin];
        [assumption|].
      apply get_frontier_None in Hnin. congruence.
    + apply get_frontier_None in Hget. now rewrite decide_False.
Qed.



End store_in_ram_lookup.


(** ** Frontier pulls into the in-memory store *)

Lemma add_fronts_from_iter_ram (fronts : list frontier_entry.t)
    (db : store_in_ram_interface.t) (stop : option exception)
    (peer : Peer.t) :
  exists db',
    frontier_service.add_fronts_from_iter db fronts stop peer
    = (db', match stop with None => Ok tt | Some e => Raise e end)
    /\ (forall a,
          store_in_ram_interface.get_frontier db' a
          = match last (filter (fun f => frontier_entry.account f = a)
                               fronts) with
            | Some f =>
                Some (frontier_entry.new a (frontier_entry.frontier_hash f))
            | None => store_in_ram_interface.get_frontier db a
            end)
    /\ (NoDup (history.accounts db) -> NoDup (history.accounts db')).
Proof.
  revert db. induction fronts as [|front fronts IH]; intros db.
  - exists db. split; [now destruct stop|]. split; [reflexivity|tauto].
  - cbn [frontier_service.add_fronts_from_iter add_frontier
         store_in_ram_database].
    destruct (IH (store_in_ram_interface.add_frontier db front peer))
      as (db' & -> & Hlook & Hnd).
    exists db'. split; [reflexivity|]. split.
    + intros a. rewrite Hlook, get_frontier_after_add.
      destruct (decide (frontier_entry.account front = a)) as [Heq|Hne].
      * rewrite filter_cons_True by exact Heq. rewrite last_cons.
        destruct (last (filter _ fronts)); [reflexivity|].
        now rewrite decide_True.
      * rewrite filter_cons_False by exact Hne.
        destruct (last (filter _ fronts)); [reflexivity|].
        now rewrite decide_False.
    + intros Hdb. now apply Hnd, NoDup_accounts_add_frontier.
Qed.

(** X11.  A frontier pull into the in-memory store merges every entry that
    arrived, whether the pull ended at the end marker or was cut short by
    an exception: afterwards each account that occurred in the stream is
    found with the hash of its last occurrence, every other account is
    found as before, no account is stored twice if none was, and the
    exception, if any, is raised only after the entries were stored. *)
Theorem manage_peer_frontiers_merges_stream
    (network : Peer.t -> pull_outcome) (db : store_in_ram_interface.t)
    (p : Peer.t) :
  exists db',
    frontier_service.manage_peer_frontiers network db p
    = (db', match snd (network p) with
            | None => Ok tt
            | Some e => Raise e
            end)
    /\ (forall a,
          store_in_ram_interface.get_frontier db' a
          = match last (filter (fun f => frontier_entry.account f = a)
                               (fst (network p))) with
            | Some f =>
                Some (frontier_entry.new a (frontier_entry.frontier_hash f))
            | None => store_in_ram_interface.get_frontier db a
            end)
    /\ (NoDup (frontier_entry.account <$> store_in_ram_interface.get_all db)
        -> NoDup (frontier_entry.account
                    <$> store_in_ram_interface.get_all db')).
Proof.
  unfold frontier_service.manage_peer_frontiers.
  destruct (network p) as [fronts stop]. cbn [fst snd].
  apply add_fronts_from_iter_ram.
Qed.

(** ** Blacklist: adding, looking up, removing *)

Section blacklist_more.
Context {A T : Type} `{PyEq A, Timestamp T, EqDecision A, EqDecision T}.
Import blacklist_manager.

Lemma set_blacklist_same (self : blacklist_manager.t A T) :
  set_blacklist self (blacklist self) = self.
Proof. now destruct self. Qed.

Lemma get_entry_None (self : blacklist_manager.t A T) (item : A) :
  get_entry self item = None ->
  Forall (fun b => py_eq item (blacklist_entry.item b) = false)
         (blacklist self).
Proof.
  unfold get_entry.
  destruct (list_find _ (blacklist self)) as [[i e]|] eqn:Hfind;
    [discriminate|]. intros _.
  apply list_find_None in Hfind.
  eapply Forall_impl; [exact Hfind|]. intros b Hb. cbn in Hb.
  now destruct (py_eq item (blacklist_entry.item b)).
Qed.

(** The three ways [is_blacklisted] can go. *)
Lemma is_blacklisted_cases (now : T) (self : blacklist_manager.t A T)
    (item : A) :
  (get_entry self item = None
   /\ is_blacklisted now self item = Ok (self, false))
  \/ (exists entry,
        get_entry self item = Some entry
        /\ (forall ttl, expiry_time self = Some ttl ->
              blacklist_entry.has_expired now entry ttl = false)
        /\ is_blacklisted now self item = Ok (self, true))
  \/ (exists entry ttl before after,
        get_entry self item = Some entry
        /\ expiry_time self = Some ttl
        /\ blacklist_entry.has_expired now entry ttl = true
        /\ blacklist self = before ++ entry :: after
        /\ Forall (fun b => py_eq item (blacklist_entry.item b) = false)
                  before
        /\ py_eq item (blacklist_entry.item entry) = true
        /\ is_blacklisted now self item
           = Ok (set_blacklist self (before ++ after), false)).
Proof.
  unfold is_blacklisted.
  destruct (get_entry self item) as [entry|] eqn:Hget; [|now left].
  right.
  destruct (expiry_time self) as [ttl|] eqn:Httl.
  - destruct (blacklist_entry.has_expired now entry ttl) eqn:Hexp.
    + right.
      destruct (get_entry_Some self item entry Hget)
        as (before & after & Hl & Hb & He).
      exists entry, ttl, before, after.
      rewrite (remove_entry_found self item entry before after)
        by assumption.
      now repeat split.
    + left. exists entry. split; [reflexivity|]. split; [|reflexivity].
      now intros ttl' [= <-].
  - left. exists entry. split; [reflexivity|]. split; [|reflexivity].
    discriminate.
Qed.

(** X12.  An item of the configured type that equals itself and has no
    entry yet is recorded by [add_item] with the time of the call.  From
    then on [is_blacklisted] answers true while no TTL is set or the TTL has
    not run out since that time; the first lookup after that answers false
    and hands back the manager exactly as it was before the [add_item]. *)
Theorem add_item_then_is_blacklisted (t0 : T)
    (self : blacklist_manager.t A T) (item : A) :
  isinstance item (object_type self) = true ->
  py_eq item item = true ->
  get_entry self item = None ->
  exists self1,
    add_item t0 self item = Ok self1
    /\ blacklist self1 = blacklist self ++ [blacklist_entry.new item t0]
    /\ forall t,
         is_blacklisted t self1 item
         = match expiry_time self with
           | None => Ok (self1, true)
           | Some ttl =>
               if time_gt (time_sub t t0) ttl then Ok (self, false)
               else Ok (self1, true)
           end.
Proof.
  intros Htype Hrefl Hnone.
  set (entry := blacklist_entry.new item t0).
  exists (set_blacklist self (blacklist self ++ [entry])).
  split; [unfold add_item; now rewrite Htype, Hnone|].
  split; [reflexivity|]. intros t.
  pose proof (get_entry_None self item Hnone) as Hall.
  assert (Hget : get_entry (set_blacklist self (blacklist self ++ [entry]))
                           item = Some entry).
  { unfold get_entry. cbn [blacklist set_blacklist].
    rewrite list_find_app_r.
    - cbn. rewrite decide_True by exact Hrefl. reflexivity.
    - apply list_find_None. eapply Forall_impl; [exact Hall|].
      intros b Hb. cbn. congruence. }
  unfold is_blacklisted. rewrite Hget.
  cbn [expiry_time set_blacklist].
  destruct (expiry_time self) as [ttl|] eqn:Httl; [|reflexivity].
  unfold blacklist_entry.has_expired. cbn [blacklist_entry.time entry].
  destruct (time_gt (time_sub t t0) ttl); [|reflexivity].
  rewrite (remove_entry_found _ item entry (blacklist self) [])
    by (try reflexivity; assumption).
  cbn [mbind result_bind]. rewrite app_nil_r.
  destruct self; reflexivity.
Qed.

End blacklist_more.

Lemma add_item_then_is_blacklisted_witness :
  let p := Peer.new [x7f; x00; x00; x01] 7075 1000 in
  let self : blacklist_manager.t Peer.t Z :=
    blacklist_manager.new (fun _ => true) (Some 1800) in
  exists self1,
    blacklist_manager.add_item 100 self p = Ok self1
    /\ blacklist_manager.blacklist self1
       = blacklist_manager.blacklist self ++ [blacklist_entry.new p 100]
    /\ forall t,
         blacklist_manager.is_blacklisted t self1 p
         = match blacklist_manager.expiry_time self with
           | None => Ok (self1, true)
           | Some ttl =>
               if time_gt (time_sub t 100) ttl then Ok (self, false)
               else Ok (self1, true)
           end.
Proof.
  cbv zeta.
  apply (add_item_then_is_blacklisted 100
           (blacklist_manager.new (fun _ => true) (Some 1800))
           (Peer.new [x7f; x00; x00; x01] 7075 1000)).
  - reflexivity.
  - vm_compute. reflexivity.
  - reflexivity.
Defined.

(** ** Blacklists of peers *)

Lemma Peer_py_eq_identity (p q : Peer.t) :
  py_eq p q = true <-> peer_identity p = peer_identity q.
Proof.
  unfold py_eq, Peer_py_eq, peer_identity. rewrite bool_decide_eq_true.
  split; [intros [-> ->]; reflexivity|]. intros [= -> ->]. now split.
Qed.

Lemma Peer_py_eq_not_identity (p q : Peer.t) :
  py_eq p q = false <-> peer_identity p <> peer_identity q.
Proof.
  rewrite <- Peer_py_eq_identity. now destruct (py_eq p q).
Qed.

Section peer_blacklist.
Context {T : Type} `{Timestamp T, EqDecision T}.
Import blacklist_manager.

Implicit Types (self : blacklist_manager.t Peer.t T)
               (l before after : list (blacklist_entry.t Peer.t T))
               (p q : Peer.t).

Lemma get_entry_cons self (b : blacklist_entry.t Peer.t T) l p :
  get_entry (set_blacklist self (b :: l)) p
  = if decide (peer_identity p = peer_identity (blacklist_entry.item b))
    then Some b else get_entry (set_blacklist self l) p.
Proof.
  unfold get_entry. cbn [blacklist set_blacklist list_find].
  destruct (decide (py_eq p (blacklist_entry.item b) = true)) as [Heq|Hne].
  - apply Peer_py_eq_identity in Heq. now rewrite decide_True.
  - rewrite decide_False by (now rewrite <- Peer_py_eq_identity).
    now destruct (list_find _ l) as [[i e]|].
Qed.

Lemma get_entry_None_iff self l p :
  get_entry (set_blacklist self l) p = None
  <-> peer_identity p ∉ listed_identities l.
Proof.
  unfold listed_identities. induction l as [|b l IH].
  - split; [intros _; apply not_elem_of_nil|reflexivity].
  - rewrite get_entry_cons, fmap_cons, not_elem_of_cons.
    destruct (decide (peer_identity p
                      = peer_identity (blacklist_entry.item b))).
    + split; [discriminate|tauto].
    + rewrite IH. tauto.
Qed.

Lemma get_entry_skip self before after (x : blacklist_entry.t Peer.t T) p :
  peer_identity p <> peer_identity (blacklist_entry.item x) ->
  get_entry (set_blacklist self (before ++ x :: after)) p
  = get_entry (set_blacklist self (before ++ after)) p.
Proof.
  intros Hne. induction before as [|b before IH]; cbn [app].
  - rewrite get_entry_cons. now rewrite decide_False.
  - rewrite !get_entry_cons. now rewrite IH.
Qed.

Lemma get_entry_first self before after (e : blacklist_entry.t Peer.t T) p :
  peer_identity p ∉ listed_identities before ->
  peer_identity p = peer_identity (blacklist_entry.item e) ->
  get_entry (set_blacklist self (before ++ e :: after)) p = Some e.
Proof.
  unfold listed_identities. intros Hb He.
  induction before as [|b before IH]; cbn [app].
  - rewrite get_entry_cons. now rewrite decide_True.
  - rewrite fmap_cons, not_elem_of_cons in Hb. destruct Hb as [Hb1 Hb2].
    rewrite get_entry_cons. rewrite decide_False by exact Hb1. now apply IH.
Qed.

Lemma get_entry_ext self p q :
  peer_identity p = peer_identity q ->
  get_entry self p = get_entry self q.
Proof.
  intros Hpq. rewrite <- (set_blacklist_same self).
  induction (blacklist self) as [|b l IH]; [reflexivity|].
  rewrite !get_entry_cons, IH. now rewrite Hpq.
Qed.


(** With one entry per identity, taking an entry out leaves no entry for
    its peer and does not change what any other peer finds. *)
Lemma get_entry_removed self before after (e : blacklist_entry.t Peer.t T) :
  NoDup (listed_identities (before ++ e :: after)) ->
  NoDup (listed_identities (before ++ after))
  /\ forall q,
       get_entry (set_blacklist self (before ++ after)) q
       = if decide (peer_identity q
                    = peer_identity (blacklist_entry.item e))
         then None
         else get_entry (set_blacklist self (before ++ e :: after)) q.
Proof.
  unfold listed_identities. rewrite !fmap_app, fmap_cons.
  intros Hnd. apply NoDup_app in Hnd as (Hb & Hcross & Ha).
  apply NoDup_cons in Ha as [He Ha].
  split.
  - apply NoDup_app. split; [assumption|]. split; [|assumption].
    intros x Hx Hxa. apply (Hcross x Hx). now apply list_elem_of_further.
  - intros q.
    destruct (decide (peer_identity q
                      = peer_identity (blacklist_entry.item e)))
      as [Heq|Hne].
    + apply get_entry_None_iff. unfold listed_identities.
      rewrite fmap_app, elem_of_app, Heq. intros [Hin|Hin].
      * apply (Hcross _ Hin). apply list_elem_of_here.
      * contradiction.
    + symmetry. now apply get_entry_skip.
Qed.

(** X13.  A peer blacklist that names no peer identity twice stays that way
    under every operation: [add_item] that returns, [is_blacklisted] and
    [remove_item]; the last two never raise. *)
Theorem blacklist_keeps_one_entry_per_peer self p (now : T) :
  NoDup (listed_identities (blacklist self)) ->
  (forall self', add_item now self p = Ok self' ->
                 NoDup (listed_identities (blacklist self')))
  /\ (exists self' listed,
        is_blacklisted now self p = Ok (self', listed)
        /\ NoDup (listed_identities (blacklist self')))
  /\ (exists self',
        remove_item self p = Ok self'
        /\ NoDup (listed_identities (blacklist self'))).
Proof.
  intros Hnd. split; [|split].
  - intros self'. unfold add_item.
    destruct (negb (isinstance p (object_type self))); [discriminate|].
    destruct (get_entry self p) as [e|] eqn:Hget.
    + now intros [= <-].
    + intros [= <-]. cbn [blacklist set_blacklist].
      rewrite <- (set_blacklist_same self) in Hget.
      apply get_entry_None_iff in Hget.
      unfold listed_identities in *. rewrite fmap_app. cbn [fmap list_fmap].
      apply NoDup_app. split; [assumption|]. split; [|apply NoDup_singleton].
      intros x Hx Hx'. apply list_elem_of_singleton in Hx'. subst x.
      contradiction.
  - destruct (is_blacklisted_cases now self p)
      as [[_ ->]|[(e & _ & _ & ->)|(e & ttl & before & after & _ & _ & _
                                     & Hl & _ & _ & ->)]].
    + now exists self, false.
    + now exists self, true.
    + eexists _, false. split; [reflexivity|]. cbn [blacklist set_blacklist].
      rewrite Hl in Hnd. now apply (get_entry_removed self) in Hnd.
  - unfold remove_item.
    destruct (get_entry self p) as [e|] eqn:Hget; [|now exists self].
    destruct (get_entry_Some self p e Hget)
      as (before & after & Hl & Hb & He).
    rewrite (remove_entry_found self p e before after) by assumption.
    eexists. split; [reflexivity|]. cbn [blacklist set_blacklist].
    rewrite Hl in Hnd. now apply (get_entry_removed self) in Hnd.
Qed.


End peer_blacklist.

Lemma blacklist_keeps_one_entry_per_peer_witness :
  let p := Peer.new [x7f; x00; x00; x01] 7075 1000 in
  let q := Peer.new [x7f; x00; x00; x02] 7075 1000 in
  let self : blacklist_manager.t Peer.t Z :=
    blacklist_manager.mk [blacklist_entry.new p 100] (fun _ => true)
                         (Some 1800) in
  (forall self', blacklist_manager.add_item 200 self q = Ok self' ->
     NoDup (listed_identities (blacklist_manager.blacklist self')))
  /\ (exists self' listed,
        blacklist_manager.is_blacklisted 200 self q = Ok (self', listed)
        /\ NoDup (listed_identities (blacklist_manager.blacklist self')))
  /\ (exists self',
        blacklist_manager.remove_item self q = Ok self'
        /\ NoDup (listed_identities (blacklist_manager.blacklist self'))).
Proof.
  cbv zeta.
  apply (blacklist_keeps_one_entry_per_peer
           (blacklist_manager.mk
              [blacklist_entry.new (Peer.new [x7f; x00; x00; x01] 7075 1000)
                                   100] (fun _ => true) (Some 1800))
           (Peer.new [x7f; x00; x00; x02] 7075 1000) 200).
  apply NoDup_singleton.
Defined.


(** ** Peer registry *)

Section registry.
Context {T : Type} `{Timestamp T, EqDecision T}.
Import peer_registry.

Implicit Types (self : peer_registry.t T) (p q : Peer.t).

Lemma contains_identity (peers : list Peer.t) p :
  contains peers p = true <-> peer_identity p ∈ peer_identity <$> peers.
Proof.
  unfold contains. induction peers as [|q peers IH]; cbn [existsb].
  - rewrite elem_of_nil. split; [discriminate|tauto].
  - rewrite fmap_cons, elem_of_cons, orb_true_iff, IH, Peer_py_eq_identity.
    split; (intros [?|?]; [left; congruence|now right]).
Qed.

Lemma contains_app (peers more : list Peer.t) p :
  contains (peers ++ more) p = contains peers p || contains more p.
Proof. apply existsb_app. Qed.

Lemma merge_peers_loop_cons (clock : nat -> T) (k : nat) self p
    (rest : list Peer.t) :
  merge_peers_loop clock k self (p :: rest)
  = self' ← merge_step (clock k) self p;
    merge_peers_loop clock (S k) self' rest.
Proof.
  cbn [merge_peers_loop]. unfold merge_step.
  destruct (blacklist_manager.is_blacklisted _ _ _) as [[bl listed]|e];
    reflexivity.
Qed.

(** What one turn does: it never raises, it adds at most the candidate,
    and only if the candidate is neither listed nor a member; it only ever
    takes entries off the blacklist. *)
Lemma merge_step_cases (now : T) self p :
  exists blacklist' listed,
    blacklist_manager.is_blacklisted now (blacklist self) p
    = Ok (blacklist', listed)
    /\ merge_step now self p
       = Ok {| peers := if negb listed && negb (contains (peers self) p)
                        then peers self ++ [p] else peers self;
               blacklist := blacklist' |}.
Proof.
  unfold merge_step.
  destruct (is_blacklisted_cases now (blacklist self) p)
    as [[_ Heq]|[(e & _ & _ & Heq)|(e & ttl & before & after & _ & _ & _
                                     & _ & _ & _ & Heq)]];
    rewrite Heq; cbn [mbind result_bind]; eexists _, _;
    (split; [reflexivity|]); destruct (negb _ && negb _); reflexivity.
Qed.

Lemma is_blacklisted_shrinks (now : T)
    (bl : blacklist_manager.t Peer.t T) p
    (bl' : blacklist_manager.t Peer.t T) (listed : bool) :
  blacklist_manager.is_blacklisted now bl p = Ok (bl', listed) ->
  blacklist_manager.expiry_time bl' = blacklist_manager.expiry_time bl
  /\ forall b, b ∈ blacklist_manager.blacklist bl' ->
               b ∈ blacklist_manager.blacklist bl.
Proof.
  destruct (is_blacklisted_cases now bl p)
    as [[_ ->]|[(e & _ & _ & ->)|(e & ttl & before & after & _ & _ & _
                                   & Hl & _ & _ & ->)]];
    intros [= <- <-]; try (split; [reflexivity|tauto]).
  split; [reflexivity|]. cbn [blacklist_manager.blacklist
                              blacklist_manager.set_blacklist].
  intros b. rewrite Hl, !elem_of_app, elem_of_cons. tauto.
Qed.

Lemma merge_peers_loop_grows (clock : nat -> T) (candidates : list Peer.t) :
  forall (k : nat) self,
  exists self' added,
    merge_peers_loop clock k self candidates = Ok self'
    /\ peers self' = peers self ++ added
    /\ (forall p, p ∈ added -> p ∈ candidates)
    /\ (NoDup (peer_identity <$> peers self) ->
        NoDup (peer_identity <$> peers self'))
    /\ blacklist_manager.expiry_time (blacklist self')
       = blacklist_manager.expiry_time (blacklist self)
    /\ (forall b, b ∈ blacklist_manager.blacklist (blacklist self') ->
                  b ∈ blacklist_manager.blacklist (blacklist self)).
Proof.
  induction candidates as [|p rest IH]; intros k self.
  - exists self, []. split; [reflexivity|]. rewrite app_nil_r.
    repeat split; tauto.
  - rewrite merge_peers_loop_cons.
    destruct (merge_step_cases (clock k) self p)
      as (bl1 & listed & Hbl & ->). cbn [mbind result_bind].
    apply is_blacklisted_shrinks in Hbl as [Hexp Hsub].
    match goal with |- context [merge_peers_loop clock (S k) ?s rest] =>
      destruct (IH (S k) s)
        as (self' & added & -> & Hpeers & Hadded & Hnd & Hexp' & Hsub')
    end.
    cbn [peers blacklist] in Hpeers, Hnd, Hexp', Hsub'.
    destruct (negb listed && negb (contains (peers self) p)) eqn:Hcond.
    + exists self', (p :: added). split; [reflexivity|].
      split; [rewrite Hpeers; now rewrite <- app_assoc|].
      split; [|split; [|split]].
      * intros q Hq. apply elem_of_cons in Hq as [->|Hq];
          [apply list_elem_of_here|apply list_elem_of_further, Hadded, Hq].
      * intros Hdistinct. apply Hnd. rewrite fmap_app. cbn [fmap list_fmap].
        apply NoDup_app. split; [assumption|].
        split; [|apply NoDup_singleton].
        intros x Hx Hx'. apply list_elem_of_singleton in Hx'. subst x.
        apply andb_true_iff in Hcond as [_ Hc].
        apply negb_true_iff in Hc.
        apply contains_identity in Hx. congruence.
      * congruence.
      * intros b Hb. apply Hsub, Hsub', Hb.
    + exists self', added. split; [reflexivity|].
      split; [exact Hpeers|]. split; [|split; [|split]].
      * intros q Hq. apply list_elem_of_further, Hadded, Hq.
      * exact Hnd.
      * congruence.
      * intros b Hb. apply Hsub, Hsub', Hb.
Qed.

(** X15.  [merge_peers] never raises and only ever appends to the
    registry: the members it had stay in place, every peer it adds is one
    of the candidates, a registry that held no peer identity twice still
    holds none twice, and the blacklist keeps its TTL and gains no
    entry. *)
Theorem merge_peers_only_appends (clock : nat -> T) self
    (candidates : list Peer.t) :
  exists self' added,
    merge_peers clock self candidates = Ok self'
    /\ peers self' = peers self ++ added
    /\ (forall p, p ∈ added -> p ∈ candidates)
    /\ (NoDup (peer_identity <$> peers self) ->
        NoDup (peer_identity <$> peers self'))
    /\ blacklist_manager.expiry_time (blacklist self')
       = blacklist_manager.expiry_time (blacklist self)
    /\ (forall b, b ∈ blacklist_manager.blacklist (blacklist self') ->
                  b ∈ blacklist_manager.blacklist (blacklist self)).
Proof. apply merge_peers_loop_grows. Qed.

Lemma merge_peers_loop_skips (clock : nat -> T) (candidates : list Peer.t)
    p (entry : blacklist_entry.t Peer.t T) (expiry : option T) :
  forall (k : nat) self,
    (forall ttl j, expiry = Some ttl ->
       (k <= j < k + length candidates)%nat ->
       blacklist_entry.has_expired (clock j) entry ttl = false) ->
    blacklist_manager.expiry_time (blacklist self) = expiry ->
    blacklist_manager.get_entry (blacklist self) p = Some entry ->
    contains (peers self) p = false ->
    exists self',
      merge_peers_loop clock k self candidates = Ok self'
      /\ contains (peers self') p = false
      /\ blacklist_manager.get_entry (blacklist self') p = Some entry.
Proof.
  induction candidates as [|q rest IH]; intros k self Hfresh Hexpiry Hget Hnot.
  - now exists self.
  - rewrite merge_peers_loop_cons. unfold merge_step.
    assert (Hfresh' : forall ttl j, expiry = Some ttl ->
              (S k <= j < S k + length rest)%nat ->
              blacklist_entry.has_expired (clock j) entry ttl = false)
      by (intros ttl j Ht Hj; apply Hfresh; [exact Ht|cbn [length]; lia]).
    assert (Hother : peer_identity q <> peer_identity p ->
                     contains (peers self ++ [q]) p = false).
    { intros Hne. rewrite contains_app, Hnot. cbn.
      rewrite orb_false_r. now apply Peer_py_eq_not_identity. }
    destruct (is_blacklisted_cases (clock k) (blacklist self) q)
      as [[Hq ->]|[(e & Hq & _ & ->)|(e & ttl & before & after & Hq & Httl
                                       & Hexp & Hl & _ & He & ->)]];
      cbn [mbind result_bind].
    + assert (Hne : peer_identity q <> peer_identity p).
      { intros Heq. rewrite (get_entry_ext _ q p Heq) in Hq. congruence. }
      destruct (negb false && negb (contains (peers self) q));
        apply IH; cbn [peers blacklist]; auto.
    + cbn [negb andb]. now apply IH.
    + assert (Hne : peer_identity q <> peer_identity p).
      { intros Heq. rewrite (get_entry_ext _ q p Heq) in Hq.
        assert (e = entry) by congruence. subst e.
        rewrite (Hfresh ttl k) in Hexp;
          [discriminate|congruence|cbn [length]; lia]. }
      assert (Hkeep : blacklist_manager.get_entry
                        (blacklist_manager.set_blacklist (blacklist self)
                           (before ++ after)) p = Some entry).
      { rewrite <- (get_entry_skip _ before after e p).
        - rewrite <- Hl. now rewrite set_blacklist_same.
        - apply Peer_py_eq_identity in He. congruence. }
      destruct (negb false && negb (contains (peers self) q));
        apply IH; cbn [peers blacklist]; auto.
Qed.

(** X16.  A peer that has a blacklist entry which is not expired, under the
    configured TTL, at any of the clock readings of the call, and that is
    not a member yet, is not admitted by [merge_peers], neither as itself
    nor through a candidate of the same address and port; its entry stays
    on the blacklist. *)
Theorem merge_peers_skips_blacklisted (clock : nat -> T) self
    (candidates : list Peer.t) p (entry : blacklist_entry.t Peer.t T) :
  blacklist_manager.get_entry (blacklist self) p = Some entry ->
  (forall ttl k,
     blacklist_manager.expiry_time (blacklist self) = Some ttl ->
     (k < length candidates)%nat ->
     blacklist_entry.has_expired (clock k) entry ttl = false) ->
  contains (peers self) p = false ->
  exists self',
    merge_peers clock self candidates = Ok self'
    /\ contains (peers self') p = false
    /\ (forall q, q ∈ peers self' ->
                  peer_identity q <> peer_identity p)
    /\ blacklist_manager.get_entry (blacklist self') p = Some entry.
Proof.
  intros Hget Hfresh Hnot.
  destruct (merge_peers_loop_skips clock candidates p entry
              (blacklist_manager.expiry_time (blacklist self)) 0 self)
    as (self' & Hrun & Hnot' & Hget'); try assumption; try reflexivity.
  { intros ttl j Ht Hj. apply Hfresh; [exact Ht|lia]. }
  exists self'. split; [exact Hrun|]. split; [exact Hnot'|].
  split; [|exact Hget'].
  intros q Hq Heq.
  assert (Hin : contains (peers self') p = true).
  { apply contains_identity. rewrite <- Heq.
    now apply list_elem_of_fmap_2. }
  congruence.
Qed.

Lemma merge_peers_loop_admits (clock : nat -> T) (candidates : list Peer.t)
    p :
  p ∈ candidates ->
  forall (k : nat) self,
    blacklist_manager.get_entry (blacklist self) p = None ->
    exists self',
      merge_peers_loop clock k self candidates = Ok self'
      /\ contains (peers self') p = true.
Proof.
  induction candidates as [|q rest IH]; intros Hin k self Hnone.
  - now apply elem_of_nil in Hin.
  - rewrite merge_peers_loop_cons.
    destruct (merge_step_cases (clock k) self q)
      as (bl1 & listed & Hbl & ->). cbn [mbind result_bind].
    assert (Hnone1 : blacklist_manager.get_entry bl1 p = None).
    { pose proof (is_blacklisted_shrinks _ _ _ _ _ Hbl) as [_ Hsub].
      rewrite <- (set_blacklist_same bl1).
      rewrite <- (set_blacklist_same (blacklist self)) in Hnone.
      apply get_entry_None_iff. apply get_entry_None_iff in Hnone.
      unfold listed_identities in *. intros Hp. apply Hnone.
      apply list_elem_of_fmap in Hp as (b & Heq & Hb).
      apply list_elem_of_fmap. exists b. split; [exact Heq|apply Hsub, Hb]. }
    destruct (decide (contains
                (if negb listed && negb (contains (peers self) q)
                 then peers self ++ [q] else peers self) p = true))
      as [Hnow|Hnotyet].
    + match goal with |- context [merge_peers_loop clock (S k) ?s rest] =>
        destruct (merge_peers_loop_grows clock rest (S k) s)
          as (self' & added & Hrun & Hpeers & _)
      end.
      exists self'. split; [exact Hrun|]. cbn [peers] in Hpeers.
      rewrite Hpeers, contains_app, Hnow. reflexivity.
    + apply elem_of_cons in Hin as [->|Hin]; [|now apply IH].
      exfalso. apply Hnotyet.
      destruct (is_blacklisted_cases (clock k) (blacklist self) q)
        as [[_ Heq]|[(e & Hq & _)|(e & ttl & before & after & Hq & _)]];
        [|congruence|congruence].
      rewrite Heq in Hbl. injection Hbl as <- <-. cbn [negb andb].
      destruct (contains (peers self) q) eqn:Hc; cbn [negb]; [exact Hc|].
      rewrite contains_app. cbn. rewrite orb_false_r.
      apply orb_true_iff. right. now apply Peer_py_eq_identity.
Qed.

(** X17.  A candidate that has no blacklist entry is a member after
    [merge_peers], under its address and port: either it was one already
    or it has been added. *)
Theorem merge_peers_admits_unlisted (clock : nat -> T) self
    (candidates : list Peer.t) p :
  p ∈ candidates ->
  blacklist_manager.get_entry (blacklist self) p = None ->
  exists self',
    merge_peers clock self candidates = Ok self'
    /\ peer_identity p ∈ peer_identity <$> peers self'.
Proof.
  intros Hin Hnone.
  destruct (merge_peers_loop_admits clock candidates p Hin 0 self Hnone)
    as (self' & Hrun & Hc).
  exists self'. split; [exact Hrun|]. now apply contains_identity.
Qed.

(** X18.  [fetch_peers] raises [AssertionError] exactly when no crawled
    peer has a score of at least 1000 and an IPv4 address; otherwise it
    returns, keeps the members it had in place, and every peer it adds is a
    crawled peer with a score of at least 1000 and an IPv4 address. *)
Theorem fetch_peers_admits_only_eligible (crawled : list Peer.t)
    (is_ipv4 : bytes -> bool) (clock : nat -> T) self :
  let eligible p := 1000 <= Peer.score p /\ is_ipv4 (Peer.ip p) = true in
  (fetch_peers crawled is_ipv4 clock self = Raise AssertionError
   <-> forall p, p ∈ crawled -> ~ eligible p)
  /\ ((exists p, p ∈ crawled /\ eligible p) ->
      exists self' added,
        fetch_peers crawled is_ipv4 clock self = Ok self'
        /\ peers self' = peers self ++ added
        /\ forall p, p ∈ added -> p ∈ crawled /\ eligible p).
Proof.
  intros eligible. unfold fetch_peers.
  set (kept := filter (fun p => 1000 <= Peer.score p
                                /\ is_ipv4 (Peer.ip p) = true) crawled).
  assert (Hkept : forall p, p ∈ kept <-> eligible p /\ p ∈ crawled)
    by (intros p; apply list_elem_of_filter).
  destruct (merge_peers_loop_grows clock kept 0 self)
    as (self' & added & Hrun & Hpeers & Hadded & _).
  unfold merge_peers. unfold_bind. destruct kept as [|p0 kept'] eqn:Hk.
  - rewrite bool_decide_eq_true_2 by reflexivity. cbn [negb].
    split; [split; [|reflexivity]|].
    + intros _ p Hp Hel.
      assert (Hin : p ∈ []) by (now apply Hkept). now apply elem_of_nil in Hin.
    + intros (p & Hp & Hel).
      assert (Hin : p ∈ []) by (now apply Hkept). now apply elem_of_nil in Hin.
  - rewrite bool_decide_eq_false_2 by discriminate. cbn [negb].
    rewrite Hrun. split; [split; [discriminate|]|].
    + intros Hnone. exfalso. apply (Hnone p0); apply Hkept, list_elem_of_here.
    + intros _. exists self', added. split; [reflexivity|].
      split; [exact Hpeers|].
      intros p Hp. apply Hadded, Hkept in Hp. tauto.
Qed.

End registry.

Lemma merge_peers_skips_blacklisted_witness :
  let p := Peer.new [x7f; x00; x00; x01] 7075 1000 in
  let q := Peer.new [x7f; x00; x00; x02] 7075 1000 in
  let self : peer_registry.t Z :=
    peer_registry.mk []
      (blacklist_manager.mk [blacklist_entry.new p 100] (fun _ => true)
                            (Some 1800)) in
  exists self',
    peer_registry.merge_peers (fun k => 200 + Z.of_nat k) self [p; q]
    = Ok self'
    /\ peer_registry.contains (peer_registry.peers self') p = false
    /\ (forall r, r ∈ peer_registry.peers self' ->
                  peer_identity r <> peer_identity p)
    /\ blacklist_manager.get_entry (peer_registry.blacklist self') p
       = Some (blacklist_entry.new p 100).
Proof.
  cbv zeta.
  apply (merge_peers_skips_blacklisted (fun k => 200 + Z.of_nat k)
           (peer_registry.mk []
              (blacklist_manager.mk
                 [blacklist_entry.new
                    (Peer.new [x7f; x00; x00; x01] 7075 1000) 100]
                 (fun _ => true) (Some 1800)))
           [Peer.new [x7f; x00; x00; x01] 7075 1000;
            Peer.new [x7f; x00; x00; x02] 7075 1000]).
  - vm_compute. reflexivity.
  - intros ttl k [= <-] Hk. unfold blacklist_entry.has_expired.
    cbn [blacklist_entry.time time_gt time_sub Z_timestamp length] in *.
    destruct (200 + Z.of_nat k - 100 >? 1800) eqn:Hgt; [|reflexivity].
    apply Z.gtb_lt in Hgt. lia.
  - reflexivity.
Defined.

Lemma merge_peers_admits_unlisted_witness :
  let p := Peer.new [x7f; x00; x00; x01] 7075 1000 in
  let self : peer_registry.t Z :=
    peer_registry.mk []
      (blacklist_manager.new (fun _ => true) (Some 1800)) in
  exists self',
    peer_registry.merge_peers (fun k => 200 + Z.of_nat k) self [p] = Ok self'
    /\ peer_identity p ∈ peer_identity <$> peer_registry.peers self'.
Proof.
  cbv zeta.
  apply (merge_peers_admits_unlisted (fun k => 200 + Z.of_nat k)
           (peer_registry.mk []
              (blacklist_manager.new (fun _ => true) (Some 1800)))
           [Peer.new [x7f; x00; x00; x01] 7075 1000]).
  - apply list_elem_of_here.
  - reflexivity.
Defined.

(** ** Crawl pass: exceptions outside the [except] clause *)

Section crawl_abort.
Context {DB : Type} `{frontier_database DB}.
Import frontier_service.

Lemma single_pass_loop_stops (network : Peer.t -> pull_outcome)
    (before after : list Peer.t) (p : Peer.t) (e : exception) :
  (forall (db : DB) f q, exists db', add_frontier db f q = Ok db') ->
  (forall q e', q ∈ before -> snd (network q) = Some e' ->
                caught e' = true) ->
  snd (network p) = Some e ->
  caught e = false ->
  forall db : DB,
  exists db',
    single_pass_loop network db (before ++ p :: after)
    = (db', (after_pass network <$> before) ++ p :: after, Raise e).
Proof.
  intros Hadd Hcaught Hstop Hnot.
  induction before as [|q before IH]; intros db.
  - apply (single_pass_loop_uncaught Hadd); assumption.
  - cbn [app single_pass_loop]. unfold manage_peer_frontiers.
    rewrite fmap_cons. unfold after_pass at 1. unfold pull_fails.
    pose proof (Hcaught q) as Hq.
    destruct (network q) as [fronts stop] eqn:Hnet. cbn [snd] in *.
    destruct (add_fronts_from_iter_outcome Hadd fronts db stop q)
      as [db1 ->].
    destruct (IH (fun r e' Hr => Hcaught r e' (list_elem_of_further _ _ _ Hr))
                 db1) as [db2 Hloop].
    destruct stop as [e'|].
    + rewrite (Hq e' (list_elem_of_here _ _) eq_refl), Hloop. now exists db2.
    + rewrite Hloop. now exists db2.
Qed.

(** X19.  [single_pass] catches four exception classes and no other.  With
    a backend whose [add_frontier] does not raise, when the pull from a
    peer ends in an exception of any other class, the pass raises that
    exception at once: the peers before it have been handled as usual, the
    failing peer keeps its score, and the peers after it are not visited
    and keep their scores. *)
Theorem single_pass_stops_on_uncaught (network : Peer.t -> pull_outcome)
    (self : frontier_service.t DB) (before after : list Peer.t)
    (p : Peer.t) (e : exception) :
  (forall (db : DB) f q, exists db', add_frontier db f q = Ok db') ->
  peers self = before ++ p :: after ->
  (forall q e', q ∈ before -> snd (network q) = Some e' ->
                caught e' = true) ->
  snd (network p) = Some e ->
  caught e = false ->
  exists db',
    single_pass network self
    = ({| database_interface := db';
          peers := (after_pass network <$> before) ++ p :: after;
          ready := ready self |},
       Raise e).
Proof.
  intros Hadd Hpeers Hcaught Hstop Hnot. unfold single_pass. rewrite Hpeers.
  destruct (single_pass_loop_stops network before after p e Hadd Hcaught
              Hstop Hnot (database_interface self)) as [db' ->].
  now exists db'.
Qed.

End crawl_abort.

Lemma single_pass_stops_on_uncaught_witness :
  let reset : Peer.t -> pull_outcome := fun _ => ([], Some (OtherException 104)) in
  let p := Peer.new [x7f; x00; x00; x01] 7075 1000 in
  let q := Peer.new [x7f; x00; x00; x02] 7075 1000 in
  exists db',
    frontier_service.single_pass reset
      (frontier_service.mk store_in_ram_interface.new [p; q] false)
    = (frontier_service.mk db' [p; q] false, Raise (OtherException 104)).
Proof.
  cbv zeta.
  apply (single_pass_stops_on_uncaught
           (fun _ => ([], Some (OtherException 104)))
           (frontier_service.mk store_in_ram_interface.new
              [Peer.new [x7f; x00; x00; x01] 7075 1000;
               Peer.new [x7f; x00; x00; x02] 7075 1000] false)
           [] [Peer.new [x7f; x00; x00; x02] 7075 1000]
           (Peer.new [x7f; x00; x00; x01] 7075 1000) (OtherException 104)).
  - intros db f r. eexists. reflexivity.
  - reflexivity.
  - intros r e' Hr. now apply elem_of_nil in Hr.
  - reflexivity.
  - reflexivity.
Defined.

(** ** The relational backend: batching *)

Section my_sql.
Import my_sql_db.

Implicit Types (self : my_sql_db.t) (frontier : frontier_entry.t)
               (peer : Peer.t).

Lemma flushed_app (c1 c2 : list db_call) :
  flushed (c1 ++ c2) = flushed c1 ++ flushed c2.
Proof. apply omap_app. Qed.

Lemma registered_app (c1 c2 : list db_call) :
  registered (c1 ++ c2) = registered c1 ++ registered c2.
Proof. apply omap_app. Qed.

(** One [add_frontier], seen from the Frontiers table: the row joins the
    cache, and the cache is sent and emptied exactly when it held 1024 rows
    before. *)
Lemma add_frontier_rows self frontier peer :
  (length (cache self) <= 1024)%nat ->
  let query := row_of (frontier, peer) in
  flushed (calls (add_frontier self frontier peer))
  = flushed (calls self)
    ++ (if decide (length (cache self) = 1024%nat)
        then [cache self ++ [query]] else [])
  /\ cache (add_frontier self frontier peer)
     = if decide (length (cache self) = 1024%nat)
       then [] else cache self ++ [query].
Proof.
  intros Hlen query. unfold add_frontier, add_batch, add_peer_to_db.
  fold (row_of (frontier, peer)). fold query.
  destruct (negb (existsb _ (peers_stored self)));
    cbn [calls cache peers_stored]; rewrite length_app; cbn [length];
    unfold BATCH_SIZE;
    (destruct (decide (length (cache self) = 1024%nat)) as [Heq|Hne];
     [rewrite Heq; cbn [Nat.ltb Nat.leb Nat.add]
     |replace (1024 <? length (cache self) + 1)%nat with false
        by (symmetry; apply Nat.ltb_ge; lia)]);
    cbn [calls cache]; rewrite ?flushed_app; cbn; rewrite ?app_nil_r;
    now split.
Qed.

Lemma add_frontiers_rows (adds : list (frontier_entry.t * Peer.t)) :
  forall self,
    (length (cache self) <= 1024)%nat ->
    Forall (fun values => length values = 1025%nat) (flushed (calls self)) ->
    let self' := add_frontiers self adds in
    (length (cache self') <= 1024)%nat
    /\ Forall (fun values => length values = 1025%nat)
              (flushed (calls self'))
    /\ concat (flushed (calls self')) ++ cache self'
       = (concat (flushed (calls self)) ++ cache self) ++ (row_of <$> adds).
Proof.
  induction adds as [|[frontier peer] adds IH]; intros self Hlen Hsizes.
  - cbn. now rewrite app_nil_r.
  - cbn [add_frontiers fold_left fst snd].
    destruct (add_frontier_rows self frontier peer Hlen) as [Hf Hc].
    cbv zeta in Hf, Hc.
    specialize (IH (add_frontier self frontier peer)).
    destruct IH as (Hlen' & Hsizes' & Hrows).
    + rewrite Hc. destruct (decide _); [cbn; lia|].
      rewrite length_app. cbn. lia.
    + rewrite Hf. apply Forall_app. split; [assumption|].
      destruct (decide _) as [Heq|]; [|constructor].
      constructor; [|constructor]. rewrite length_app, Heq. reflexivity.
    + split; [exact Hlen'|]. split; [exact Hsizes'|].
      unfold add_frontiers in Hrows. rewrite Hrows, Hf, Hc.
      rewrite fmap_cons.
      destruct (decide _); rewrite ?concat_app; cbn [concat];
        rewrite ?app_nil_r, <- ?app_assoc; reflexivity.
Qed.

Lemma length_concat_uniform {X : Type} (n : nat) (ls : list (list X)) :
  Forall (fun l => length l = n) ls ->
  length (concat ls) = (n * length ls)%nat.
Proof.
  induction 1 as [|l ls Hl _ IH]; cbn [concat length]; [lia|].
  rewrite length_app, IH, Hl. lia.
Qed.

(** X20.  After any number of [add_frontier] calls on a fresh relational
    backend the cache holds at most 1024 rows, every bulk insert that was
    sent carries exactly 1025 rows, and n calls have led to n div 1025 bulk
    inserts with n mod 1025 rows still waiting in the cache; so the first
    1024 frontiers reach no table until a 1025th arrives. *)
Theorem my_sql_db_batches_of_1025
    (adds : list (frontier_entry.t * Peer.t)) :
  let self := add_frontiers new adds in
  (length (cache self) <= 1024)%nat
  /\ Forall (fun values => length values = 1025%nat) (flushed (calls self))
  /\ length (flushed (calls self)) = (length adds / 1025)%nat
  /\ length (cache self) = (length adds mod 1025)%nat.
Proof.
  destruct (add_frontiers_rows adds new) as (Hlen & Hsizes & Hrows);
    [cbn; lia|constructor|].
  cbv zeta in *. split; [exact Hlen|]. split; [exact Hsizes|].
  change (concat (flushed (calls (add_frontiers new adds)))
          ++ cache (add_frontiers new adds) = row_of <$> adds) in Hrows.
  apply (f_equal length) in Hrows.
  rewrite length_app, length_fmap in Hrows.
  rewrite (length_concat_uniform 1025) in Hrows by exact Hsizes.
  set (b := length (flushed (calls (add_frontiers new adds)))) in *.
  set (c := length (cache (add_frontiers new adds))) in *.
  assert (Hn : length adds = (b * 1025 + c)%nat) by lia.
  rewrite Hn. split.
  - apply Nat.div_unique with c; lia.
  - apply Nat.mod_unique with b; lia.
Qed.

(** X21.  The relational backend loses and reorders nothing while it
    batches: after any number of [add_frontier] calls on a fresh backend,
    the rows of the bulk inserts sent so far followed by the rows still in
    the cache are the rows of the calls, in call order. *)
Theorem my_sql_db_keeps_every_row
    (adds : list (frontier_entry.t * Peer.t)) :
  let self := add_frontiers new adds in
  concat (flushed (calls self)) ++ cache self = row_of <$> adds.
Proof.
  destruct (add_frontiers_rows adds new) as (_ & _ & Hrows);
    [cbn; lia|constructor|].
  exact Hrows.
Qed.

Lemma stored_identity (stored : list Peer.t) peer :
  existsb (fun q => py_eq q peer) stored = true
  <-> peer_identity peer ∈ peer_identity <$> stored.
Proof.
  induction stored as [|q stored IH]; cbn [existsb].
  - rewrite elem_of_nil. split; [discriminate|tauto].
  - rewrite fmap_cons, elem_of_cons, orb_true_iff, IH, Peer_py_eq_identity.
    split; (intros [?|?]; [left; congruence|now right]).
Qed.

(** One [add_frontier], seen from the Peers table: the peer is inserted,
    and remembered, exactly when no remembered peer equals it. *)
Lemma add_frontier_peers self frontier peer :
  let fresh :=
    if existsb (fun q => py_eq q peer) (peers_stored self)
    then [] else [peer] in
  registered (calls (add_frontier self frontier peer))
  = registered (calls self) ++ fresh
  /\ peers_stored (add_frontier self frontier peer)
     = peers_stored self ++ fresh.
Proof.
  unfold add_frontier, add_batch, add_peer_to_db.
  destruct (existsb _ (peers_stored self)); cbn [negb];
    match goal with |- context [(?n <? ?m)%nat] =>
      destruct (n <? m)%nat end;
    cbn [calls cache peers_stored]; rewrite ?registered_app; cbn;
    rewrite ?app_nil_r; now split.
Qed.

Lemma rows_follow_peers_app (c1 c2 : list db_call) :
  forall seen,
    rows_follow_peers seen (c1 ++ c2)
    <-> rows_follow_peers seen c1
        /\ rows_follow_peers (seen ++ (peer_identity <$> registered c1)) c2.
Proof.
  induction c1 as [|c c1 IH]; intros seen.
  - cbn. rewrite app_nil_r. tauto.
  - destruct c as [[values|peer|peer|peer|]|]; cbn [app rows_follow_peers].
    + rewrite IH. cbn. tauto.
    + rewrite IH. cbn. unfold peer_identity at 2.
      now rewrite <- app_assoc.
    + apply IH.
    + apply IH.
    + apply IH.
    + apply IH.
Qed.

(** What the registration keeps true from call to call. *)
Lemma add_frontier_registration self frontier peer :
  registered (calls self) = peers_stored self ->
  NoDup (peer_identity <$> peers_stored self) ->
  Forall (fun r => peer_identity (row_peer r)
                   ∈ peer_identity <$> peers_stored self) (cache self) ->
  rows_follow_peers [] (calls self) ->
  let self' := add_frontier self frontier peer in
  registered (calls self') = peers_stored self'
  /\ NoDup (peer_identity <$> peers_stored self')
  /\ Forall (fun r => peer_identity (row_peer r)
                      ∈ peer_identity <$> peers_stored self') (cache self')
  /\ rows_follow_peers [] (calls self')
  /\ (peer_identity peer ∈ peer_identity <$> peers_stored self')
  /\ forall x, x ∈ peer_identity <$> peers_stored self ->
               x ∈ peer_identity <$> peers_stored self'.
Proof.
  intros Hreg Hnd Hcache Hrows self'.
  destruct (add_frontier_peers self frontier peer) as [Hr Hp].
  cbv zeta in Hr, Hp. fold self' in Hr, Hp.
  set (fresh := if existsb (fun q => py_eq q peer) (peers_stored self)
                then [] else [peer]) in *.
  assert (Hin : peer_identity peer
                ∈ peer_identity <$> (peers_stored self ++ fresh)).
  { subst fresh. destruct (existsb _ _) eqn:Hex.
    - rewrite app_nil_r. now apply stored_identity.
    - rewrite fmap_app, elem_of_app. right. apply list_elem_of_here. }
  assert (Hmono : forall x, x ∈ peer_identity <$> peers_stored self ->
                            x ∈ peer_identity <$> (peers_stored self ++ fresh))
    by (intros x Hx; rewrite fmap_app, elem_of_app; now left).
  assert (Hnd' : NoDup (peer_identity <$> (peers_stored self ++ fresh))).
  { subst fresh. destruct (existsb _ _) eqn:Hex.
    - now rewrite app_nil_r.
    - rewrite fmap_app. apply NoDup_app. split; [assumption|].
      split; [|apply NoDup_singleton].
      intros x Hx Hx'. apply list_elem_of_singleton in Hx'. subst x.
      apply stored_identity in Hx. congruence. }
  assert (Hall : Forall (fun r => peer_identity (row_peer r)
                   ∈ peer_identity <$> (peers_stored self ++ fresh))
                   (cache self ++ [row_of (frontier, peer)])).
  { apply Forall_app. split.
    - eapply Forall_impl; [exact Hcache|]. intros r Hr'. now apply Hmono.
    - constructor; [exact Hin|constructor]. }
  rewrite Hp. split; [now rewrite Hr, Hreg|]. split; [exact Hnd'|].
  split; [|split; [|split; [exact Hin|exact Hmono]]].
  - subst self'. unfold add_frontier, add_batch.
    match goal with |- context [(?n <? ?m)%nat] =>
      destruct (n <? m)%nat end; cbn [cache]; [constructor|].
    destruct (negb _); cbn [cache peers_stored add_peer_to_db]; exact Hall.
  - subst self'. unfold add_frontier, add_batch.
    assert (Hcalls : rows_follow_peers []
              (calls (if negb (existsb (fun q => py_eq q peer)
                                 (peers_stored self))
                      then add_peer_to_db self peer else self))).
    { destruct (negb _); [|exact Hrows]. cbn [calls add_peer_to_db].
      apply rows_follow_peers_app. split; [exact Hrows|]. cbn. exact I. }
    assert (Hregd : registered
              (calls (if negb (existsb (fun q => py_eq q peer)
                                 (peers_stored self))
                      then add_peer_to_db self peer else self))
              = peers_stored self ++ fresh).
    { subst fresh. destruct (existsb _ _); cbn [negb calls add_peer_to_db].
      - now rewrite app_nil_r.
      - rewrite registered_app, Hreg. reflexivity. }
    match goal with |- context [(?n <? ?m)%nat] =>
      destruct (n <? m)%nat end.
    + cbn [calls cache peers_stored].
      destruct (negb (existsb (fun q => py_eq q peer) (peers_stored self)));
        cbn [calls cache peers_stored] in *;
        (apply rows_follow_peers_app; split; [exact Hcalls|]);
        rewrite Hregd; cbn [app rows_follow_peers]; (split; [|exact I]);
        exact Hall.
    + destruct (negb (existsb (fun q => py_eq q peer) (peers_stored self)));
        cbn [calls cache peers_stored] in *; exact Hcalls.
Qed.

Lemma add_frontiers_registration
    (adds : list (frontier_entry.t * Peer.t)) :
  forall self,
    registered (calls self) = peers_stored self ->
    NoDup (peer_identity <$> peers_stored self) ->
    Forall (fun r => peer_identity (row_peer r)
                     ∈ peer_identity <$> peers_stored self) (cache self) ->
    rows_follow_peers [] (calls self) ->
    let self' := add_frontiers self adds in
    registered (calls self') = peers_stored self'
    /\ NoDup (peer_identity <$> peers_stored self')
    /\ rows_follow_peers [] (calls self')
    /\ (forall x, x ∈ peer_identity <$> peers_stored self ->
                  x ∈ peer_identity <$> peers_stored self')
    /\ forall a, a ∈ adds ->
                 peer_identity (snd a) ∈ peer_identity <$> peers_stored self'.
Proof.
  induction adds as [|[frontier peer] adds IH];
    intros self Hreg Hnd Hcache Hrows.
  - cbn. repeat split; try assumption; try tauto.
    intros a Ha. now apply elem_of_nil in Ha.
  - destruct (add_frontier_registration self frontier peer Hreg Hnd Hcache
                Hrows) as (Hreg1 & Hnd1 & Hcache1 & Hrows1 & Hin1 & Hmono1).
    cbv zeta in *.
    destruct (IH _ Hreg1 Hnd1 Hcache1 Hrows1)
      as (Hreg' & Hnd' & Hrows' & Hmono' & Hall').
    cbn [add_frontiers fold_left fst snd]. unfold add_frontiers in *.
    split; [exact Hreg'|]. split; [exact Hnd'|]. split; [exact Hrows'|].
    split; [intros x Hx; now apply Hmono', Hmono1|].
    intros a Ha. apply elem_of_cons in Ha as [->|Ha].
    + now apply Hmono'.
    + now apply Hall'.
Qed.

(** X22.  After any number of [add_frontier] calls on a fresh relational
    backend, the peers inserted into Peers are the remembered peers, no
    address and port was inserted twice, every peer that contributed a
    frontier has been inserted, and every bulk insert into Frontiers came
    after the insert of each peer its rows name. *)
Theorem my_sql_db_registers_each_peer_once
    (adds : list (frontier_entry.t * Peer.t)) :
  let self := add_frontiers new adds in
  registered (calls self) = peers_stored self
  /\ NoDup (peer_identity <$> registered (calls self))
  /\ (forall a, a ∈ adds ->
        peer_identity (snd a) ∈ peer_identity <$> registered (calls self))
  /\ rows_follow_peers [] (calls self).
Proof.
  destruct (add_frontiers_registration adds new)
    as (Hreg & Hnd & Hrows & _ & Hall);
    [reflexivity|constructor|constructor|exact I|].
  cbv zeta in *. rewrite Hreg. now repeat split.
Qed.

Lemma add_frontiers_registered (adds : list (frontier_entry.t * Peer.t)) :
  forall self,
  exists extra,
    registered (calls (add_frontiers self adds))
    = registered (calls self) ++ extra
    /\ (forall x, x ∈ peer_identity <$> peers_stored self ->
          x ∈ peer_identity <$> peers_stored (add_frontiers self adds))
    /\ forall q, q ∈ extra ->
                 peer_identity q ∉ peer_identity <$> peers_stored self.
Proof.
  induction adds as [|[frontier peer] adds IH]; intros self.
  - exists []. cbn. rewrite app_nil_r. repeat split; try tauto.
    intros q Hq. now apply elem_of_nil in Hq.
  - cbn [add_frontiers fold_left fst snd].
    destruct (add_frontier_peers self frontier peer) as [Hr Hp].
    cbv zeta in Hr, Hp.
    destruct (IH (add_frontier self frontier peer))
      as (extra & Hreg & Hmono & Hextra).
    unfold add_frontiers in *. rewrite Hreg, Hr, Hp in *.
    eexists. split; [now rewrite <- app_assoc|]. split.
    + intros x Hx. apply Hmono. rewrite fmap_app, elem_of_app. now left.
    + intros q Hq. apply elem_of_app in Hq as [Hq|Hq].
      * destruct (existsb _ _) eqn:Hex; [now apply elem_of_nil in Hq|].
        apply list_elem_of_singleton in Hq. subst q.
        intros Hin. apply stored_identity in Hin. congruence.
      * intros Hin. apply (Hextra q Hq).
        rewrite fmap_app, elem_of_app. now left.
Qed.

(** X23.  [remove_frontier] on the relational backend pays no attention
    to its frontier: it deletes all frontiers of the peer and the peer
    itself, and then sends the account delete with the placeholder still
    in it.  It does not forget the peer nor drop the rows waiting in the
    cache, so no later [add_frontier], however many follow, inserts a peer
    of that address and port into Peers again. *)
Theorem my_sql_db_remove_frontier_keeps_peer_remembered self
    (frontier frontier' : frontier_entry.t) peer
    (adds : list (frontier_entry.t * Peer.t)) :
  peer_identity peer ∈ peer_identity <$> peers_stored self ->
  remove_frontier self frontier peer = remove_frontier self frontier' peer
  /\ calls (remove_frontier self frontier peer)
     = calls self ++ [execute (delete_frontiers_of_peer peer);
                      execute (delete_peer peer); commit;
                      execute delete_frontiers_where_account_placeholder]
  /\ cache (remove_frontier self frontier peer) = cache self
  /\ exists extra,
       registered (calls (add_frontiers (remove_frontier self frontier peer)
                                        adds))
       = registered (calls self) ++ extra
       /\ forall q, q ∈ extra -> peer_identity q <> peer_identity peer.
Proof.
  intros Hstored. split; [reflexivity|].
  split; [unfold remove_frontier, remove_peer_data; cbn [calls];
          now rewrite <- app_assoc|].
  split; [reflexivity|].
  destruct (add_frontiers_registered adds
              (remove_frontier self frontier peer))
    as (extra & Hreg & _ & Hextra).
  exists extra. split.
  - rewrite Hreg. f_equal. unfold remove_frontier, remove_peer_data.
    cbn [calls]. rewrite !registered_app. cbn. now rewrite !app_nil_r.
  - intros q Hq Heq. apply (Hextra q Hq). now rewrite Heq.
Qed.

End my_sql.

Lemma my_sql_db_remove_frontier_keeps_peer_remembered_witness :
  let peer := Peer.new [x7f; x00; x00; x01] 7075 1000 in
  let f := frontier_entry.new (replicate 32 x01) (replicate 32 xaa) in
  let self := my_sql_db.add_frontier my_sql_db.new f peer in
  my_sql_db.registered
    (my_sql_db.calls
       (my_sql_db.add_frontiers (my_sql_db.remove_frontier self f peer)
          [(f, peer)]))
  = [peer].
Proof.
  cbv zeta.
  destruct (my_sql_db_remove_frontier_keeps_peer_remembered
              (my_sql_db.add_frontier my_sql_db.new
                 (frontier_entry.new (replicate 32 x01) (replicate 32 xaa))
                 (Peer.new [x7f; x00; x00; x01] 7075 1000))
              (frontier_entry.new (replicate 32 x01) (replicate 32 xaa))
              (frontier_entry.new (replicate 32 x01) (replicate 32 xaa))
              (Peer.new [x7f; x00; x00; x01] 7075 1000)
              [(frontier_entry.new (replicate 32 x01) (replicate 32 xaa),
                Peer.new [x7f; x00; x00; x01] 7075 1000)])
    as (_ & _ & _ & extra & Hreg & _).
  - apply list_elem_of_here.
  - reflexivity.
Defined.

(** ** Decoding, then encoding *)

(** X24.  Whatever [client_packet.parse] accepts, [serialise] turns back
    into the very same 33 bytes. *)
Theorem client_packet_parse_then_serialise (data : bytes)
    (c_packet : client_packet.t) :
  client_packet.parse data = Ok c_packet ->
  client_packet.serialise c_packet = Ok data.
Proof.
  intros Hparse.
  destruct (client_packet_parse_cases data) as [(Hl & Hb & Hp)|[_ Hp]];
    rewrite Hp in Hparse; [|discriminate].
  injection Hparse as <-. rewrite client_packet_serialise_eq.
  cbn [client_packet.account client_packet.new].
  destruct data as [|b rest]; [discriminate|].
  cbn in Hb. injection Hb as ->. reflexivity.
Qed.

Lemma client_packet_parse_then_serialise_witness :
  client_packet.serialise (client_packet.new (replicate 32 x01))
  = Ok ("K"%byte :: replicate 32 x01).
Proof.
  apply (client_packet_parse_then_serialise ("K"%byte :: replicate 32 x01)).
  reflexivity.
Defined.

(** X25.  Parsing a response body and serialising the result keeps every
    record and normalises the rest: for a header count n below 2^64, a
    body of 64 * n bytes and any 64-byte tail, the parsed packet serialises
    to the magic byte, the 8-byte big-endian n, the same body, and 64 zero
    bytes in place of the tail. *)
Theorem server_packet_parse_then_serialise (hdr : server_packet_header.t)
    (body tail : bytes) :
  Z.of_nat (length body) = 64 * server_packet_header.no_of_frontiers hdr ->
  length tail = 64%nat ->
  server_packet_header.no_of_frontiers hdr < 2 ^ 64 ->
  exists s_packet count,
    server_packet.parse hdr (body ++ tail) = Ok s_packet
    /\ server_packet.serialise s_packet
       = Ok (("K"%byte :: count) ++ body ++ zero_bytes 64)
    /\ length count = 8%nat
    /\ int_from_bytes count = server_packet_header.no_of_frontiers hdr.
Proof.
  intros Hbody Htail Hsmall.
  set (n := Z.to_nat (server_packet_header.no_of_frontiers hdr)).
  destruct (body_records_spec n body) as (Hwf & Hn & Hcat); [lia|].
  destruct (server_packet_serialise_wire (body_records n body))
    as (count & Hser & Hcount & Hval); [lia|].
  exists (server_packet.new (Some <$> body_records n body)), count.
  split.
  - rewrite <- Hcat at 1.
    apply server_packet_parse_entries; [assumption|lia|assumption].
  - rewrite Hser, Hcat. split; [reflexivity|]. split; [assumption|]. lia.
Qed.

Lemma server_packet_parse_then_serialise_witness :
  exists s_packet count,
    server_packet.parse (server_packet_header.new 1)
      (replicate 64 x07 ++ replicate 64 xff) = Ok s_packet
    /\ server_packet.serialise s_packet
       = Ok (("K"%byte :: count) ++ replicate 64 x07 ++ zero_bytes 64)
    /\ length count = 8%nat
    /\ int_from_bytes count = 1.
Proof.
  apply (server_packet_parse_then_serialise (server_packet_header.new 1)
           (replicate 64 x07) (replicate 64 xff)); reflexivity.
Defined.
